(** * oneminutelogs-next: the batching transport, the query cache and the
      live-stream window

    A shallow embedding of [dist/utils/transport.js], [dist/utils/getLogs.js],
    the [getStream] hook and [dist/core/createLogger.js], the properties of
    the specification proved (or refuted) on it, and further properties of
    the code (X1 to X20).

    JavaScript runs each piece of code to completion between two suspension
    points.  An [async] function is therefore embedded as one definition per
    segment: the code up to its [await], and the code that resumes once the
    awaited promise has settled.  Every segment is a computation in the
    monad [Eff] below: it threads the mutable state and ends either normally
    or with a thrown exception. *)

From stdpp Require Import gmap strings list pretty.
From Stdlib Require Import ZArith Ascii.

Set Warnings "-register-all".

Local Open Scope Z_scope.

(** ** Part I: definitions *)

(** *** Exceptions, completions and the effect monad *)

Module JS.

(** A thrown [Error]: its [name] and its [message]. *)
Record exn := Exn { exn_name : string; exn_message : string }.

(** How a piece of code ends: normally with a value, or by throwing. *)
Inductive completion (A : Type) : Type :=
| Normal (a : A)
| Throw (e : exn).
Arguments Normal {A} a.
Arguments Throw {A} e.

(** A computation over the mutable state [S]. *)
Definition Eff (S A : Type) : Type := S -> completion A * S.

Definition ret {S A} (a : A) : Eff S A := fun s => (Normal a, s).

Definition bind {S A B} (c : Eff S A) (k : A -> Eff S B) : Eff S B :=
  fun s =>
    match c s with
    | (Normal a, s') => k a s'
    | (Throw e, s') => (Throw e, s')
    end.

Definition throw {S A} (e : exn) : Eff S A := fun s => (Throw e, s).

Definition gets {S A} (f : S -> A) : Eff S A := fun s => (Normal (f s), s).

Definition modify {S} (f : S -> S) : Eff S unit := fun s => (Normal tt, f s).

(** [try { c } catch (err) { h err }] *)
Definition tryCatch {S A} (c : Eff S A) (h : exn -> Eff S A) : Eff S A :=
  fun s =>
    match c s with
    | (Normal a, s') => (Normal a, s')
    | (Throw e, s') => h e s'
    end.

(** [try { c } finally { f }]: [f] runs either way; the completion of [c]
    is kept unless [f] itself throws. *)
Definition tryFinally {S A} (c : Eff S A) (f : Eff S unit) : Eff S A :=
  fun s =>
    match c s with
    | (r, s') =>
        match f s' with
        | (Normal _, s'') => (r, s'')
        | (Throw e, s'') => (Throw e, s'')
        end
    end.

(** [await p] once [p] has settled with outcome [o]: the value of a
    fulfilled promise, or the rejection reason thrown at the [await]. *)
Definition await {S A} (o : completion A) : Eff S A := fun s => (o, s).

(** [xs.map(f)]: the callback runs on the elements from left to right and
    the first exception ends the loop. *)
Fixpoint mapM {S A B} (f : A -> Eff S B) (xs : list A) : Eff S (list B) :=
  match xs with
  | [] => ret []
  | x :: xs' => bind (f x) (fun y => bind (mapM f xs') (fun ys => ret (y :: ys)))
  end.

End JS.

Import JS.

Declare Scope eff_scope.
Delimit Scope eff_scope with eff.
Notation "x <-- c ;; k" := (bind c (fun x => k))
  (at level 20, c at level 99, k at level 200, only parsing) : eff_scope.
Notation "c ;;; k" := (bind c (fun _ => k))
  (at level 100, k at level 200, right associativity, only parsing) : eff_scope.

(** *** [OMLTransport]: buffer, flush timer, delivery and shutdown *)

Module Transport.
Section Model.

(** The application's log payload ([LogPayload] of [types/index.d.ts]):
    plain JSON data, so that [JSON.stringify] of a batch does not throw. *)
Context {LogPayload : Type}.

(** A buffered event: [{ ...payload, ingested_at: Date.now() }]. *)
Record Event := mkEvent { payload : LogPayload; ingested_at : Z }.

(** The value [setTimeout] returns: a truthy handle, fresh at every call. *)
Definition handle := nat.

Inductive signal := beforeExit | SIGINT | SIGTERM.

(** The fields of one [OMLTransport] instance, followed by the part of the
    host the instance acts on. *)
Record world := mkWorld {
  buffer : list Event;          (* this.buffer *)
  timer : option handle;        (* this.timer, [None] for null *)
  shuttingDown : bool;          (* this.shuttingDown *)
  isFlushing : bool;            (* this.isFlushing *)
  pending : list handle;        (* timers armed and neither fired nor cleared *)
  fresh : handle;               (* the handle the next setTimeout returns *)
  posted : list (list Event);   (* the [logs] of every POST /send, oldest first *)
  errors : list exn;            (* what console.error was given, oldest first *)
  exitPending : bool;           (* shutdownHandler is suspended at [await this.flush()] *)
  exited : bool                 (* process.exit(0) was called *)
}.

(** [new OMLTransport(config)] *)
Definition init : world :=
  mkWorld [] None false false [] 0%nat [] [] false false.

Definition set_buffer (b : list Event) (w : world) : world :=
  mkWorld b (timer w) (shuttingDown w) (isFlushing w) (pending w) (fresh w)
          (posted w) (errors w) (exitPending w) (exited w).
Definition set_timer (t : option handle) (w : world) : world :=
  mkWorld (buffer w) t (shuttingDown w) (isFlushing w) (pending w) (fresh w)
          (posted w) (errors w) (exitPending w) (exited w).
Definition set_shuttingDown (b : bool) (w : world) : world :=
  mkWorld (buffer w) (timer w) b (isFlushing w) (pending w) (fresh w)
          (posted w) (errors w) (exitPending w) (exited w).
Definition set_isFlushing (b : bool) (w : world) : world :=
  mkWorld (buffer w) (timer w) (shuttingDown w) b (pending w) (fresh w)
          (posted w) (errors w) (exitPending w) (exited w).
Definition set_pending (p : list handle) (w : world) : world :=
  mkWorld (buffer w) (timer w) (shuttingDown w) (isFlushing w) p (fresh w)
          (posted w) (errors w) (exitPending w) (exited w).
Definition set_exitPending (b : bool) (w : world) : world :=
  mkWorld (buffer w) (timer w) (shuttingDown w) (isFlushing w) (pending w) (fresh w)
          (posted w) (errors w) b (exited w).

(** [setTimeout(() => this.flush(), ms)]: arms a timer, returns its handle. *)
Definition setTimeout : Eff world handle :=
  fun w =>
    (Normal (fresh w),
     mkWorld (buffer w) (timer w) (shuttingDown w) (isFlushing w)
             (pending w ++ [fresh w]) (S (fresh w))
             (posted w) (errors w) (exitPending w) (exited w)).

(** [clearTimeout(h)]: disarms [h]; nothing happens when it is not armed. *)
Definition clearTimeout (h : handle) : Eff world unit :=
  modify (fun w => set_pending (filter (fun h' => h' ≠ h) (pending w)) w).

(** [fetch(baseUrl + "/send", { method: "POST", body: JSON.stringify({ logs: batch }), ... })]:
    the request leaves; the promise it returns is awaited by the caller. *)
Definition post_send (batch : list Event) : Eff world unit :=
  modify (fun w =>
    mkWorld (buffer w) (timer w) (shuttingDown w) (isFlushing w) (pending w) (fresh w)
            (posted w ++ [batch]) (errors w) (exitPending w) (exited w)).

Definition console_error (e : exn) : Eff world unit :=
  modify (fun w =>
    mkWorld (buffer w) (timer w) (shuttingDown w) (isFlushing w) (pending w) (fresh w)
            (posted w) (errors w ++ [e]) (exitPending w) (exited w)).

Definition process_exit : Eff world unit :=
  modify (fun w =>
    mkWorld (buffer w) (timer w) (shuttingDown w) (isFlushing w) (pending w) (fresh w)
            (posted w) (errors w) false true).

(** [async send(payload)]; [now] is what [Date.now()] returns. *)
Definition send (p : LogPayload) (now : Z) : Eff world unit :=
  (sd <-- gets shuttingDown ;;
   if sd : bool then ret tt
   else
     modify (fun w => set_buffer (buffer w ++ [mkEvent p now]) w) ;;;
     t <-- gets timer ;;
     match t with
     | Some _ => ret tt
     | None =>
         h <-- setTimeout ;;
         modify (set_timer (Some h))
     end)%eff.

(** Where [flush()] stands when it first gives control back. *)
Inductive flush_status :=
| Skipped                         (* the guard was set: returned at once *)
| Empty                           (* nothing to send: returned, guard cleared *)
| Awaiting (batch : list Event).  (* request issued, suspended at [await fetch] *)

(** [async flush()], up to its [await]. *)
Definition flush_begin : Eff world flush_status :=
  (fl <-- gets isFlushing ;;
   if fl : bool then ret Skipped
   else
     modify (set_isFlushing true) ;;;
     t <-- gets timer ;;
     match t with
     | Some h => clearTimeout h ;;; modify (set_timer None)
     | None => ret tt
     end ;;;
     batch <-- gets buffer ;;             (* this.buffer.splice(0, length) *)
     modify (set_buffer []) ;;;
     match batch with
     | [] => modify (set_isFlushing false) ;;; ret Empty
     | _ :: _ => post_send batch ;;; ret (Awaiting batch)
     end)%eff.

(** [async flush()], from the [await] on; [o] is how the request settled. *)
Definition flush_resume (o : completion unit) : Eff world unit :=
  (tryCatch (await o) (fun err => console_error err) ;;;
   modify (set_isFlushing false))%eff.

(** What a run of [shutdownHandler] did before it gave control back. *)
Inductive handler_status :=
| Ignored                        (* shutdown had begun already *)
| Acted (f : flush_status).      (* it set the flag and called flush *)

(** [shutdownHandler(signal)], up to its [await this.flush()]. *)
Definition shutdownHandler_begin (sig : signal) : Eff world handler_status :=
  (sd <-- gets shuttingDown ;;
   if sd : bool then ret Ignored
   else
     modify (set_shuttingDown true) ;;;
     f <-- flush_begin ;;
     ret (Acted f))%eff.

(** [shutdownHandler(signal)], from the [await] on; [o] is how the promise
    of [flush()] settled. *)
Definition shutdownHandler_resume (o : completion unit) : Eff world unit :=
  tryFinally (tryCatch (await o) (fun err => console_error err)) process_exit.

(** The timer armed under handle [h] fires: its callback calls [flush]. *)
Definition fire (h : handle) : Eff world flush_status :=
  (modify (fun w => set_pending (filter (fun h' => h' ≠ h) (pending w)) w) ;;;
   flush_begin)%eff.

(** What the event loop can run next. *)
Inductive action :=
| ASend (p : LogPayload) (now : Z)     (* the application calls send *)
| AFire (h : handle)                   (* an armed timer expires *)
| ASettle (o : completion unit)        (* the request in flight settles *)
| ASignal (sig : signal).              (* a termination signal is delivered *)

(** One turn of the event loop.  Nothing runs after [process.exit]; a timer
    fires only while armed; a request settles only while one is in flight,
    and then the handler waiting for that flush, if any, resumes. *)
Definition step (a : action) (w : world) : world :=
  if exited w then w
  else
    match a with
    | ASend p now => (send p now w).2
    | AFire h => if decide (h ∈ pending w) then (fire h w).2 else w
    | ASettle o =>
        if isFlushing w then
          let w1 := (flush_resume o w).2 in
          if exitPending w1 then (shutdownHandler_resume (Normal tt) w1).2 else w1
        else w
    | ASignal sig =>
        match shutdownHandler_begin sig w with
        | (Normal (Acted (Awaiting _)), w1) => set_exitPending true w1
        | (Normal (Acted _), w1) => (shutdownHandler_resume (Normal tt) w1).2
        | (_, w1) => w1
        end
    end.

Definition run (acts : list action) (w : world) : world :=
  foldl (fun w a => step a w) w acts.

(** The states an instance can be in. *)
Inductive reachable : world -> Prop :=
| reach_init : reachable init
| reach_step a w : reachable w -> reachable (step a w).

(** **** Notions the properties are stated with *)

(** The events the [send] calls among [acts] append, in call order. *)
Fixpoint appended (acts : list action) : list Event :=
match acts with
| [] => []
| ASend p now :: acts' => mkEvent p now :: appended acts'
| _ :: acts' => appended acts'
end.

Definition is_send (a : action) : bool :=
match a with ASend _ _ => true | _ => false end.

(** What may run between the arming of a timer and its expiry, on an
    instance that is not shutting down: calls of [send], and the settling
    of the request of an earlier flush. *)
Definition in_interval (a : action) : bool :=
match a with ASend _ _ | ASettle _ => true | _ => false end.

Definition no_settle (a : action) : bool :=
match a with ASettle _ => false | _ => true end.

(** What [flush] leaves of the armed timers: the one in [this.timer] is
    cleared. *)
Definition disarmed (w : world) : list handle :=
match timer w with
| Some h => filter (fun h' => h' ≠ h) (pending w)
| None => pending w
end.

(** What [flush] logs when the request settles with [o]. *)
Definition logged (o : completion unit) : list exn :=
match o with Normal _ => [] | Throw e => [e] end.

(** The invariant of the reachable states: an empty timer slot means an
    empty buffer; at most the timer in [this.timer] is armed; the handles in
    use are older than the next one; a handler waits only on a flush in
    flight. *)
Record inv (w : world) : Prop := {
  inv_drained : timer w = None -> buffer w = [];
  inv_armed : forall h, h ∈ pending w -> timer w = Some h;
  inv_fresh : forall h, timer w = Some h -> (h < fresh w)%nat;
  inv_exit : exitPending w = true -> shuttingDown w = true /\ isFlushing w = true
}.

(** Once the shutdown handler has run: the flag is set, and either the
    process has exited or the final flush is in flight with the handler
    waiting on it. *)
Definition closing (w : world) : Prop :=
shuttingDown w = true /\
(exited w = true \/ (isFlushing w = true /\ exitPending w = true)).

(** The claim on one flush interval as the specification words it, for the
    calls [acts] made from [w]: one timer is armed, and when it expires one
    flush runs whose batch is exactly the appended events. *)
Definition flush_interval_claim (w : world) (acts : list action) : Prop :=
let w' := run acts w in
pending w' = [fresh w] /\ fresh w' = S (fresh w) /\
(fire (fresh w) w').1 = Normal (Awaiting (appended acts)) /\
posted (step (AFire (fresh w)) w') = posted w' ++ [appended acts].

(** A termination signal reaches the process. *)
Definition is_signal (a : action) : bool :=
match a with ASignal _ => true | _ => false end.

(** The calls made before the first termination signal. *)
Fixpoint before_signal (acts : list action) : list action :=
match acts with
| [] => []
| a :: acts' => if is_signal a then [] else a :: before_signal acts'
end.

(** At most one timer is armed, and it is the one held in [this.timer]. *)
Definition one_timer (w : world) : Prop :=
pending w = [] \/ exists h, pending w = [h] /\ timer w = Some h.

(** The response to [POST /send], as far as a failure shows in it. *)
Record response := mkResponse {
  ok : bool;                    (* res.ok: the status is in the range 200-299 *)
  status : nat                  (* res.status *)
}.

(** How [await fetch(...)] ends in [flush], given how the request went:
    [fetch] rejects when the request cannot be made, and fulfils with the
    response otherwise, whatever its status.  [flush] does not bind the
    response. *)
Definition delivered (net : completion response) : completion unit :=
match net with
| Normal _ => Normal tt
| Throw e => Throw e
end.

(** A delivery failure as the specification has it: a network failure or an
    HTTP error response. *)
Definition delivery_failed (net : completion response) : bool :=
match net with
| Throw _ => true
| Normal res => negb (ok res)
end.

(** The claim on failures as the specification words it: a flush whose
    delivery fails logs the failure. *)
Definition failure_logged_claim (w : world) (net : completion response) : Prop :=
delivery_failed net = true ->
errors (flush_resume (delivered net) w).2 ≠ errors w.

(** The claim on shutdown as the specification words it: the first signal
    is followed by the final flush, which sends the events buffered. *)
Definition final_flush_claim (w : world) (sig : signal) : Prop :=
buffer w ≠ [] -> posted (step (ASignal sig) w) = posted w ++ [buffer w].

End Model.

Arguments Event : clear implicits.
Arguments world : clear implicits.
Arguments action : clear implicits.

End Transport.

(** *** JavaScript values as the read path sees them *)

Module Json.

(** What [JSON.parse] and [res.json()] produce, and [undefined] for what a
    property read gives when the property is missing.  The numbers of the
    messages handled here are integers, on which the arithmetic of the
    code is exact.  An object is the list of its own properties, each key
    bound once. *)
Inductive value :=
| VUndefined
| VNull
| VBool (b : bool)
| VNum (n : Z)
| VStr (s : string)
| VArr (items : list value)
| VObj (fields : list (string * value)).

Fixpoint lookup (k : string) (fs : list (string * value)) : value :=
  match fs with
  | [] => VUndefined
  | (k', v) :: fs' => if String.eqb k' k then v else lookup k fs'
  end.

(** [v === undefined || v === null] *)
Definition nullish (v : value) : bool :=
  match v with VUndefined | VNull => true | _ => false end.

(** [!!v] *)
Definition truthy (v : value) : bool :=
  match v with
  | VUndefined | VNull => false
  | VBool b => b
  | VNum n => negb (n =? 0)
  | VStr s => negb (String.eqb s "")
  | VArr _ | VObj _ => true
  end.

Definition isArray (v : value) : bool :=
  match v with VArr _ => true | _ => false end.

(** The property names read by the code are [type], [logs], [keyId],
    [timestamp], [appName] and [message]: own properties of an object, and
    absent from strings, numbers, booleans and arrays. *)
Definition prop (v : value) (k : string) : value :=
  match v with VObj fs => lookup k fs | _ => VUndefined end.

(** [v.k]: a [TypeError] on [undefined] and [null]. *)
Definition get {S} (v : value) (k : string) : Eff S value :=
  if nullish v
  then throw (Exn "TypeError" ("Cannot read properties of null or undefined, reading " +:+ k))
  else ret (prop v k).

(** [v?.k] *)
Definition get_opt (v : value) (k : string) : value :=
  if nullish v then VUndefined else prop v k.

(** [a ?? b] *)
Definition coalesce (a b : value) : value := if nullish a then b else a.

(** [a || b] *)
Definition or_else (a b : value) : value := if truthy a then a else b.

(** The last [width] decimal digits of [n], most significant first. *)
Fixpoint digits (width : nat) (n : Z) : string :=
  match width with
  | O => ""
  | S w => digits w (n / 10) +:+ String (ascii_of_nat (48 + Z.to_nat (n mod 10))) ""
  end.

(** [String(n)] for an integer written without exponent. *)
Definition Number_toString (n : Z) : string :=
  if n <? 0 then "-" +:+ pretty (Z.to_N (- n)) else pretty (Z.to_N n).

(** [String(v)] *)
Fixpoint toString (v : value) : string :=
  match v with
  | VUndefined => "undefined"
  | VNull => "null"
  | VBool true => "true"
  | VBool false => "false"
  | VNum n => Number_toString n
  | VStr s => s
  | VArr items =>
      (fix join (xs : list value) : string :=
         match xs with
         | [] => ""
         | x :: xs' =>
             (if nullish x then "" else toString x) +:+
             match xs' with [] => "" | _ :: _ => "," +:+ join xs' end
         end) items
  | VObj _ => "[object Object]"
  end.

(** [s.replace(a, b)] for a one-character pattern: the first occurrence. *)
Fixpoint replace_first (a b : ascii) (s : string) : string :=
  match s with
  | EmptyString => EmptyString
  | String c s' => if Ascii.eqb c a then String b s' else String c (replace_first a b s')
  end.

Definition lower (c : ascii) : ascii :=
  let n := nat_of_ascii c in
  if ((65 <=? n) && (n <=? 90))%nat then ascii_of_nat (n + 32) else c.

(** [s.toLowerCase()].  The strings are UTF-8; only the letters A to Z
    change.  No other character has a lower-case form that makes a string
    equal to one of the level names compared against below. *)
Fixpoint toLowerCase (s : string) : string :=
  match s with
  | EmptyString => EmptyString
  | String c s' => String (lower c) (toLowerCase s')
  end.

(** [{ ...v }]: the own enumerable properties of [v]; those of a string are
    its characters, taken here byte by byte. *)
Definition spread (v : value) : list (string * value) :=
  match v with
  | VObj fs => fs
  | VArr items => imap (fun i x => (pretty i, x)) items
  | VStr s => imap (fun i c => (pretty i, VStr (String c ""))) (String.list_ascii_of_string s)
  | _ => []
  end.

(** Civil date of a day number counted from 1970-01-01. *)
Definition civil_from_days (day : Z) : Z * Z * Z :=
  let z := day + 719468 in
  let era := z / 146097 in
  let doe := z - era * 146097 in
  let yoe := (doe - doe / 1460 + doe / 36524 - doe / 146096) / 365 in
  let doy := doe - (365 * yoe + yoe / 4 - yoe / 100) in
  let mp := (5 * doy + 2) / 153 in
  let d := doy - (153 * mp + 2) / 5 + 1 in
  let m := if mp <? 10 then mp + 3 else mp - 9 in
  let y := yoe + era * 400 in
  (if m <=? 2 then y + 1 else y, m, d).

(** The largest time value of a [Date], in milliseconds. *)
Definition maxTime : Z := 8640000000000000.

(** [new Date(ms).toISOString()]: a [RangeError] on an invalid date. *)
Definition toISOString {S} (ms : option Z) : Eff S string :=
  match ms with
  | Some t =>
      if (- maxTime <=? t) && (t <=? maxTime) then
        let '(y, m, d) := civil_from_days (t / 86400000) in
        let r := t mod 86400000 in
        let year :=
          if (0 <=? y) && (y <=? 9999) then digits 4 y
          else (if y <? 0 then "-" else "+") +:+ digits 6 (Z.abs y) in
        ret (year +:+ "-" +:+ digits 2 m +:+ "-" +:+ digits 2 d +:+ "T" +:+
             digits 2 (r / 3600000) +:+ ":" +:+ digits 2 (r / 60000 mod 60) +:+ ":" +:+
             digits 2 (r / 1000 mod 60) +:+ "." +:+ digits 3 (r mod 1000) +:+ "Z")
      else throw (Exn "RangeError" "Invalid time value")
  | None => throw (Exn "RangeError" "Invalid time value")
  end.

End Json.

Import Json.

(** *** Query strings: [buildKey] and the URLs of the read path *)

Module Url.

(** The bytes the [application/x-www-form-urlencoded] serializer leaves as
    they are: ASCII letters and digits, and [*], [-], [.], [_]. *)
Definition unreserved (c : ascii) : bool :=
let n := nat_of_ascii c in
((48 <=? n) && (n <=? 57) || (65 <=? n) && (n <=? 90) || (97 <=? n) && (n <=? 122) ||
 (n =? 42) || (n =? 45) || (n =? 46) || (n =? 95))%nat.

Definition hex_digit (n : nat) : ascii :=
ascii_of_nat (if (n <? 10)%nat then 48 + n else 55 + n).

(** One byte of a name or value: kept, [+] for a space, or [%XX]. *)
Definition encode_byte (c : ascii) : string :=
if unreserved c then String c EmptyString
else if (nat_of_ascii c =? 32)%nat then "+"
else String "%" (String (hex_digit (nat_of_ascii c / 16))
                        (String (hex_digit (nat_of_ascii c mod 16)) EmptyString)).

(** The serializer on the UTF-8 bytes of a string. *)
Fixpoint urlencode (s : string) : string :=
match s with
| EmptyString => EmptyString
| String c s' => encode_byte c +:+ urlencode s'
end.

(** [new URLSearchParams(...).toString()] on the name-value pairs held. *)
Fixpoint serialize (ps : list (string * string)) : string :=
match ps with
| [] => EmptyString
| (k, v) :: ps' =>
    urlencode k +:+ "=" +:+ urlencode v +:+
    match ps' with [] => EmptyString | _ :: _ => "&" +:+ serialize ps' end
end.

(** [Object.entries(o)] and [Object.keys(o)] go by the own enumerable
    properties of [o], as the spread does.  An object lists them in
    enumeration order, which for names that are not array indices is the
    order in which they were written. *)
Definition entries (o : value) : list (string * value) := spread o.

(** The filters [buildKey] keeps: neither [undefined] nor [null], and not
    empty once turned into a string. *)
Definition is_set (v : value) : bool :=
negb (nullish v) && negb (String.eqb (toString v) EmptyString).

(** The pairs appended to [sp] by [buildKey], in order. *)
Definition kept (params : value) : list (string * string) :=
omap (fun kv => if is_set kv.2 then Some (kv.1, toString kv.2) else None)
     (entries (or_else params (VObj []))).

(** [buildKey(params)] of [getLogs.js] *)
Definition buildKey (params : value) : string := serialize (kept params).

(** Every property, each value through [String]: what
    [new URLSearchParams(o)] holds for an object [o]. *)
Definition all_pairs (fs : list (string * value)) : list (string * string) :=
map (fun kv => (kv.1, toString kv.2)) fs.

(** The query string of [OMLTransport.get].  The constructor of
    [URLSearchParams] reads an object property by property; a string or an
    array given instead is read in another way, left out here ([None]). *)
Definition get_qs (filters : value) : option string :=
if truthy filters && negb (Nat.eqb (length (entries filters)) 0) then
  match filters with
  | VObj fs => Some ("?" +:+ serialize (all_pairs fs))
  | _ => None
  end
else Some EmptyString.

(** What follows the path in the URL of [OMLTransport.stream]: the [?] is
    always there. *)
Definition transport_stream_qs (filters : value) : option string :=
match filters with
| VObj fs => Some ("?" +:+ serialize (all_pairs fs))
| VUndefined => Some "?"
| _ => None
end.

(** The object built by the [reduce] of the [getStream] effect: the
    properties whose value is not [undefined].  The assignment
    [acc["__proto__"] = String(v)] sets no property. *)
Definition defined_pairs (filters : value) : list (string * string) :=
omap (fun kv => match kv.2 with
                | VUndefined => None
                | v => if String.eqb kv.1 "__proto__" then None
                       else Some (kv.1, toString v)
                end) (entries filters).

(** The query string of the [getStream] effect. *)
Definition stream_qs (filters : value) : string :=
if truthy filters && negb (Nat.eqb (length (entries filters)) 0) then
  "?" +:+ serialize (defined_pairs filters)
else EmptyString.

(** No character [c] in [s]. *)
Fixpoint free_of (c : ascii) (s : string) : bool :=
match s with
| EmptyString => true
| String c' s' => negb (Ascii.eqb c' c) && free_of c s'
end.

(** The inverse of [urlencode], used to show that it loses nothing. *)
Definition unhex (c : ascii) : nat :=
let n := nat_of_ascii c in if (n <? 58)%nat then n - 48 else n - 55.

Fixpoint urldecode (s : string) : string :=
match s with
| EmptyString => EmptyString
| String c s' =>
    if Ascii.eqb c "+" then String " " (urldecode s')
    else if Ascii.eqb c "%" then
      match s' with
      | String a (String b s'') =>
          String (ascii_of_nat (16 * unhex a + unhex b)) (urldecode s'')
      | _ => String c (urldecode s')
      end
    else String c (urldecode s')
end.

End Url.

(** *** [getLogs]: the query cache and the in-flight table *)

Module GetLogs.

(** A promise returned by [fetch(url).then(...)]: the n-th one created. *)
Definition promise := nat.

(** One call of [fetchOnce], named so that what it returns can be told
    apart from what the other calls return. *)
Definition caller := nat.

(** The module-level maps, and the part of the host they act on. *)
Record store := mkStore {
  cache : gmap string value;               (* const cache = new Map() *)
  inflight : gmap string promise;          (* const inflight = new Map() *)
  requests : list string;                  (* the URL of every fetch, oldest first *)
  waiters : list (promise * (caller * string));
                                           (* calls of fetchOnce(k) suspended at [await p] *)
  returned : list (caller * completion value)
                                           (* how each finished call of fetchOnce ended *)
}.

Definition empty : store := mkStore ∅ ∅ [] [] [].

Definition set_cache (c : gmap string value) (s : store) : store :=
  mkStore c (inflight s) (requests s) (waiters s) (returned s).
Definition set_inflight (i : gmap string promise) (s : store) : store :=
  mkStore (cache s) i (requests s) (waiters s) (returned s).
Definition set_waiters (w : list (promise * (caller * string))) (s : store) : store :=
  mkStore (cache s) (inflight s) (requests s) w (returned s).
Definition add_returned (c : caller) (r : completion value) (s : store) : store :=
  mkStore (cache s) (inflight s) (requests s) (waiters s) (returned s ++ [(c, r)]).

(** [`/api/oneminutelogs/logs${k ? `?${k}` : ""}`] *)
Definition url (k : string) : string :=
  "/api/oneminutelogs/logs" +:+ (if String.eqb k "" then "" else "?" +:+ k).

(** [fetch(url, { cache: "no-store" }).then(...)]: the request leaves and
    a new pending promise is returned. *)
Definition fetch_then (u : string) : Eff store promise :=
  fun s =>
    (Normal (length (requests s)),
     mkStore (cache s) (inflight s) (requests s ++ [u]) (waiters s) (returned s)).

(** The HTTP response the [then] callback receives. *)
Record response := mkResponse {
  ok : bool;
  status : nat;
  text : string;                (* await res.text() *)
  json : completion value       (* await res.json() *)
}.

(** How the promise of [fetch_then] settles, given how the request ended:
    [fetch] rejects, or the [then] callback runs on the response. *)
Definition settled (net : completion response) : completion value :=
  match net with
  | Throw e => Throw e
  | Normal res =>
      if ok res then json res
      else Throw (Exn "Error"
             ("Failed to fetch logs (" +:+ pretty (status res) +:+ ") " +:+ text res))
  end.

(** Where [fetchOnce(k)] stands when it first gives control back. *)
Inductive fetch_status :=
| Hit (v : value)          (* served from the cache *)
| Pending (p : promise).   (* suspended at [await p] *)

(** [fetchOnce(k)], up to its [await]. *)
Definition fetchOnce_begin (k : string) : Eff store fetch_status :=
  (c <-- gets cache ;;
   match c !! k with
   | Some v => ret (Hit v)
   | None =>
       i <-- gets inflight ;;
       match i !! k with
       | Some p => ret (Pending p)
       | None =>
           p <-- fetch_then (url k) ;;
           modify (fun s => set_inflight (<[k := p]> (inflight s)) s) ;;;
           ret (Pending p)
       end
   end)%eff.

(** [fetchOnce(k)], from the [await] on; [o] is how the promise settled. *)
Definition fetchOnce_resume (k : string) (o : completion value) : Eff store value :=
  tryFinally
    (result <-- await o ;;
     modify (fun s => set_cache (<[k := result]> (cache s)) s) ;;;
     ret result)%eff
    (modify (fun s => set_inflight (delete k (inflight s)) s)).

(** A call [c] of [fetchOnce(k)] runs up to its first suspension. *)
Definition call (c : caller) (k : string) (s : store) : store :=
  match fetchOnce_begin k s with
  | (Normal (Hit v), s') => add_returned c (Normal v) s'
  | (Normal (Pending p), s') => set_waiters (waiters s' ++ [(p, (c, k))]) s'
  | (Throw e, s') => add_returned c (Throw e) s'
  end.

(** The calls suspended on [p] resume, in the order in which they
    suspended. *)
Fixpoint resume_all (p : promise) (o : completion value)
    (ws : list (promise * (caller * string))) (s : store) : store :=
  match ws with
  | [] => s
  | (p', (c, k)) :: ws' =>
      if Nat.eqb p' p then
        let '(r, s') := fetchOnce_resume k o s in
        resume_all p o ws' (add_returned c r s')
      else resume_all p o ws' s
  end.

(** Promise [p] settles. *)
Definition settle (p : promise) (net : completion response) (s : store) : store :=
  let ws := waiters s in
  resume_all p (settled net) ws
    (set_waiters (filter (fun w => w.1 ≠ p) ws) s).

(** [refetch()] of a hook whose key is [k]: [cache.delete(key)], then
    [fetchLogs()], which calls [fetchOnce(key)]. *)
Definition refetch (c : caller) (k : string) (s : store) : store :=
  call c k (set_cache (delete k (cache s)) s).

Inductive action :=
| ACall (c : caller) (k : string)
| ARefetch (c : caller) (k : string)
| ASettle (p : promise) (net : completion response).

Definition step (a : action) (s : store) : store :=
  match a with
  | ACall c k => call c k s
  | ARefetch c k => refetch c k s
  | ASettle p net => settle p net s
  end.

Inductive reachable : store -> Prop :=
| reach_empty : reachable empty
| reach_step a s : reachable s -> reachable (step a s).

(** The state of one [getLogs] hook. *)
Record hook := mkHook {
  data : value;              (* null until the first successful fetch *)
  isLoading : bool;
  error : option exn
}.

Definition setData (v : value) : Eff hook unit :=
  modify (fun h => mkHook v (isLoading h) (error h)).
Definition setIsLoading (b : bool) : Eff hook unit :=
  modify (fun h => mkHook (data h) b (error h)).
Definition setError (e : option exn) : Eff hook unit :=
  modify (fun h => mkHook (data h) (isLoading h) e).

(** [Array.isArray(json) ? json : json?.logs ?? json ?? []] *)
Definition rows_of (json : value) : value :=
  if isArray json then json
  else coalesce (coalesce (get_opt json "logs") json) (VArr []).

(** [fetchLogs()], up to [await fetchOnce(key)]. *)
Definition fetchLogs_begin : Eff hook unit :=
  (setIsLoading true ;;; setError None)%eff.

(** [fetchLogs()], from the [await] on; [o] is what [fetchOnce] gave. *)
Definition fetchLogs_resume (o : completion value) : Eff hook unit :=
  tryFinally
    (tryCatch
       (json <-- await o ;;
        let rows := rows_of json in
        setData (coalesce rows (VArr [])))%eff
       (fun e =>
          if String.eqb (exn_name e) "AbortError" then ret tt
          else (setError (Some e) ;;; setData VNull)%eff))
    (setIsLoading false).

(** **** Notions the properties are stated with *)

(** The invariant of the reachable stores: a key is never both cached and
    in flight, and every promise in use was created by an earlier request. *)
Record inv (s : store) : Prop := {
  inv_exclusive : forall k, is_Some (cache s !! k) -> inflight s !! k = None;
  inv_waiters : forall p c k, (p, (c, k)) ∈ waiters s -> (p < length (requests s))%nat;
  inv_inflight : forall k p, inflight s !! k = Some p -> (p < length (requests s))%nat
}.

(** The claim on [refetch] as the specification words it: a new network
    call, whatever the state. *)
Definition refetch_claim (s : store) (k : string) (c : caller) : Prop :=
requests (refetch c k s) = requests s ++ [url k].

(** The data value in the words of the specification: the body itself when
    it is an array; otherwise its [logs] when that is not nullish; otherwise
    the body when it is not nullish; otherwise the empty list. *)
Definition rows_spec (b : value) : value :=
match b with
| VArr _ => b
| _ =>
    if negb (nullish (prop b "logs")) then prop b "logs"
    else if negb (nullish b) then b
    else VArr []
end.

(** Some call of [fetchOnce(k)] is suspended on [p] among [ws]. *)
Definition awaited (p : promise) (k : string) (ws : list (promise * (caller * string))) : bool :=
existsb (fun w => Nat.eqb w.1 p && String.eqb w.2.2 k) ws.

(** The calls suspended on [p], oldest first. *)
Definition waiting_on (p : promise) (s : store) : list caller :=
map (fun w => w.2.1) (filter (fun w => w.1 = p) (waiters s)).

(** Every suspended call of [fetchOnce(k)] waits on the promise registered
    for [k]; a registered promise is that of a request for the URL of its
    key, and some call is suspended on it. *)
Record linked (s : store) : Prop := {
  linked_waiter : forall p c k, (p, (c, k)) ∈ waiters s -> inflight s !! k = Some p;
  linked_request : forall k p, inflight s !! k = Some p -> requests s !! p = Some (url k);
  linked_awaited : forall k p, inflight s !! k = Some p -> awaited p k (waiters s) = true
}.

(** One run of [fetchLogs()] whose [fetchOnce] ends as [o]. *)
Definition fetchLogs (o : completion value) : Eff hook unit :=
(fetchLogs_begin ;;; fetchLogs_resume o)%eff.

End GetLogs.

(** *** [getStream]: normalisation and the bounded window *)

Module GetStream.
Section Model.

(** [crypto.randomUUID()]: what its n-th call returns. *)
Variable randomUUID : nat -> string.

(** [Date.parse] on the strings built from a non-numeric timestamp: the
    time value in milliseconds, [None] for NaN. *)
Variable Date_parse : string -> option Z.

(** [StreamLogNormalized] *)
Record StreamLogNormalized := mkEntry {
  id : string;
  ts : string;
  level : string;
  source : value;
  message : value;
  payload : list (string * value)
}.

(** The state of one [getStream] hook, and the number of UUIDs drawn. *)
Record hook := mkHook {
  data : list StreamLogNormalized;
  isLoading : bool;
  error : option exn;
  connected : bool;
  uuids : nat
}.

(** The state once the effect has opened the [EventSource]. *)
Definition subscribed (u : nat) : hook := mkHook [] true None true u.

Definition set_data (d : list StreamLogNormalized) (h : hook) : hook :=
  mkHook d (isLoading h) (error h) (connected h) (uuids h).
Definition setIsLoading (b : bool) : Eff hook unit :=
  modify (fun h => mkHook (data h) b (error h) (connected h) (uuids h)).
Definition setError (e : exn) : Eff hook unit :=
  modify (fun h => mkHook (data h) (isLoading h) (Some e) (connected h) (uuids h)).

Definition crypto_randomUUID : Eff hook string :=
  fun h =>
    (Normal (randomUUID (uuids h)),
     mkHook (data h) (isLoading h) (error h) (connected h) (S (uuids h))).

(** The chain of conditionals of [toLogEntry]. *)
Definition level_of (rawType : string) : string :=
  if String.eqb rawType "warning" then "warning"
  else if String.eqb rawType "success" then "success"
  else if String.eqb rawType "error" then "error"
  else if String.eqb rawType "debug" then "debug"
  else if String.eqb rawType "audit" then "audit"
  else if String.eqb rawType "metric" then "metric"
  else "info".

(** [function toLogEntry(l)] *)
Definition toLogEntry (l : value) : Eff hook StreamLogNormalized :=
  (t <-- get l "type" ;;
   rawType <-- match or_else t (VStr "info") with
               | VStr s => ret (toLowerCase s)
               | _ => throw (Exn "TypeError" "toLowerCase is not a function")
               end ;;
   let level := level_of rawType in
   stamp <-- get l "timestamp" ;;
   tsIso <-- match stamp with
             | VNum n => toISOString (Some (n * 1000))
             | _ => toISOString
                      (Date_parse (replace_first " " "T" (toString stamp) +:+ "Z"))
             end ;;
   uuid <-- crypto_randomUUID ;;
   appName <-- get l "appName" ;;
   msg <-- get l "message" ;;
   ret (mkEntry uuid tsIso level (or_else appName (VStr "default")) msg (spread l)))%eff.

Definition items (v : value) : list value :=
  match v with VArr xs => xs | _ => [] end.

(** The first part of the updater: the records of the message, by shape. *)
Definition incoming_of (payload : value) : Eff hook (list StreamLogNormalized) :=
  if truthy payload && isArray (prop payload "logs") then
    mapM toLogEntry (items (prop payload "logs"))
  else if isArray payload then
    mapM toLogEntry (items payload)
  else if truthy payload && truthy (prop payload "keyId") then
    (e <-- toLogEntry payload ;; ret [e])%eff
  else ret [].

(** [payload?.type === "initial"] *)
Definition is_initial (payload : value) : bool :=
  match get_opt payload "type" with
  | VStr s => String.eqb s "initial"
  | _ => false
  end.

Definition cap : nat := 5000.

(** [next.length > 5000 ? next.slice(next.length - 5000) : next], and
    likewise [next.splice(0, next.length - 5000)] under the same test. *)
Definition trim (next : list StreamLogNormalized) : list StreamLogNormalized :=
  if (cap <? length next)%nat then drop (length next - cap) next else next.

(** The updater given to [setData] for a decoded message.  React runs it
    when it renders, see [render]. *)
Definition updater (payload : value) (prev : list StreamLogNormalized)
  : Eff hook (list StreamLogNormalized) :=
  (incoming <-- incoming_of payload ;;
   if is_initial payload then
     setIsLoading false ;;; ret (trim incoming)
   else
     let next := trim (prev ++ incoming) in
     setIsLoading false ;;; ret next)%eff.

(** An update of the window queued by [setData(f)]. *)
Definition queued : Type :=
  option (list StreamLogNormalized -> Eff hook (list StreamLogNormalized)).

(** [es.onmessage]; [parsed] is how [JSON.parse(event.data)] ended.  The
    handler always returns normally.  On a decoded message [setData] queues
    the updater and returns: the updater does not run inside the [try], so
    what it throws is not caught here.  A [SyntaxError] of [JSON.parse] is
    caught: it is logged and stored as the hook's error. *)
Definition es_onmessage (parsed : completion value) : Eff hook queued :=
  match parsed with
  | Normal payload => ret (Some (updater payload))
  | Throw err => (setError err ;;; setIsLoading false ;;; ret None)%eff
  end.

(** React renders the component with the update the handler queued: it
    applies the updater to the current window and commits the result.  An
    exception of the updater is raised here, by the render: nothing is
    committed, React unmounts the component, and the cleanup of the effect
    closes the [EventSource].  A [Throw] of [render] is that end of the
    hook; the state beside it is the last one React committed. *)
Definition render (q : queued) : Eff hook unit :=
  match q with
  | Some f =>
      (prev <-- gets data ;;
       next <-- f prev ;;
       modify (set_data next))%eff
  | None => ret tt
  end.

(** One message event: the handler runs and returns, then React renders. *)
Definition onmessage (parsed : completion value) : Eff hook unit :=
  (q <-- es_onmessage parsed ;; render q)%eff.

(** The message events of the stream, in arrival order, for as long as the
    component is mounted: a render that throws ends the run, since the
    [EventSource] is closed and no later message is handled. *)
Fixpoint receive (msgs : list (completion value)) : Eff hook unit :=
  match msgs with
  | [] => ret tt
  | m :: msgs' => (onmessage m ;;; receive msgs')%eff
  end.

(** The component that uses the hook: mounted with the state React last
    committed, or unmounted by a render that threw. *)
Inductive component :=
| Mounted (h : hook)
| Unmounted.

(** A message arrives.  An unmounted component has closed its
    [EventSource]: nothing is handled. *)
Definition deliver (m : completion value) (c : component) : component :=
  match c with
  | Mounted h =>
      match onmessage m h with
      | (Normal _, h') => Mounted h'
      | (Throw _, _) => Unmounted
      end
  | Unmounted => Unmounted
  end.

Definition stream (msgs : list (completion value)) (c : component) : component :=
  foldl (fun c m => deliver m c) c msgs.

(** **** Notions the properties are stated with *)

(** The only state [toLogEntry] touches is the count of UUIDs drawn. *)
Definition same_window (h h' : hook) : Prop :=
data h' = data h /\ isLoading h' = isLoading h /\ error h' = error h /\
connected h' = connected h.

Definition bump (h : hook) : hook :=
mkHook (data h) (isLoading h) (error h) (connected h) (S (uuids h)).

(** The names of the level set. *)
Definition levels : list string :=
["info"; "warning"; "error"; "debug"; "success"; "audit"; "metric"].

(** The raw type of [l] is one of the names of the level set, in any case
    of letters. *)
Definition recognized (l : value) : Prop :=
exists s, prop l "type" = VStr s /\ toLowerCase s ∈ levels.

(** The level [toLogEntry] gives a record. *)
Definition raw_level (l : value) : string :=
match or_else (prop l "type") (VStr "info") with
| VStr s => level_of (toLowerCase s)
| _ => "info"
end.

(** The ISO form of a time value in range. *)
Definition iso_of (ms : Z) : string :=
match toISOString (S := unit) (Some ms) tt with
| (Normal s, _) => s
| (Throw _, _) => ""
end.

(** The epoch second [n] is within the range of [Date]. *)
Definition valid_time (n : Z) : bool :=
(- maxTime <=? n * 1000) && (n * 1000 <=? maxTime).

Definition timestamp_of (l : value) : Z :=
match prop l "timestamp" with VNum n => n | _ => 0 end.

(** What [toLogEntry] returns on a well-formed record, given the UUID. *)
Definition entry_of (uuid : string) (l : value) : StreamLogNormalized :=
mkEntry uuid (iso_of (timestamp_of l * 1000)) (raw_level l)
        (or_else (prop l "appName") (VStr "default")) (prop l "message") (spread l).

(** A record on which [toLogEntry] does not throw: an object whose [type]
    is a string or falsy and whose [timestamp] is a number in range. *)
Definition well_formed (l : value) : bool :=
negb (nullish l) &&
match or_else (prop l "type") (VStr "info") with VStr _ => true | _ => false end &&
match prop l "timestamp" with VNum n => valid_time n | _ => false end.

(** The record a message carries when it carries exactly one, in the order
    in which the handler tests the shapes: an envelope whose [logs] array has
    one element, an array of one element, or an object with a truthy
    [keyId]. *)
Definition carried (m : value) : option value :=
if truthy m && isArray (prop m "logs") then
  match items (prop m "logs") with [r] => Some r | _ => None end
else if isArray m then
  match items m with [r] => Some r | _ => None end
else if truthy m && truthy (prop m "keyId") then Some m
else None.

Definition record_of (m : value) : value :=
match carried m with Some r => r | None => VUndefined end.

(** An incremental single-record message: it is not tagged "initial" and
    carries one well-formed record. *)
Definition single_record (m : value) : bool :=
negb (is_initial m) &&
match carried m with Some r => well_formed r | None => false end.

(** The entries of the records carried by the messages [ms], the first one
    drawing UUID number [u]. *)
Fixpoint entries (u : nat) (ms : list value) : list StreamLogNormalized :=
match ms with
| [] => []
| m :: ms' => entry_of (randomUUID u) (record_of m) :: entries (S u) ms'
end.

(** The message of the specification's example, and its record. *)
Definition example_record : value :=
VObj [("type", VStr "ERROR"); ("message", VStr "m"); ("timestamp", VNum 1700000000)].

Definition example_message : value :=
VObj [("type", VStr "initial"); ("logs", VArr [example_record])].

(** The i-th record of a numbered stream of single-record messages. *)
Definition numbered (i : nat) : value :=
VObj [("keyId", VStr "k"); ("type", VStr "info"); ("message", VStr "m");
      ("timestamp", VNum (Z.of_nat i))].


(** The ids of the window are UUIDs drawn earlier, each drawn once. *)
Definition drawn (h : hook) : Prop :=
exists ns : list nat,
  map id (data h) = map randomUUID ns /\ NoDup ns /\ Forall (fun n => (n < uuids h)%nat) ns.

(** The time value is within the range of [Date]. *)
Definition in_range (ms : Z) : bool := (- maxTime <=? ms) && (ms <=? maxTime).

(** The string [toLogEntry] hands to [Date.parse] for a timestamp that is
    not a number. *)
Definition parsed_text (stamp : value) : string :=
replace_first " " "T" (toString stamp) +:+ "Z".

(** A record whose [type] lets [toLogEntry] reach the timestamp. *)
Definition typed (l : value) : bool :=
negb (nullish l) &&
match or_else (prop l "type") (VStr "info") with VStr _ => true | _ => false end.

Definition is_number (v : value) : bool :=
match v with VNum _ => true | _ => false end.

(** The time value [toLogEntry] gives [Date] for the record [l]. *)
Definition time_of (l : value) : option Z :=
match prop l "timestamp" with
| VNum n => Some (n * 1000)
| stamp => Date_parse (parsed_text stamp)
end.

(** A record on which [toLogEntry] returns: its [type] is a string or falsy
    and its timestamp, a number or a text, gives a time value within the
    range of [Date]. *)
Definition normalisable (l : value) : bool :=
typed l && match time_of l with Some ms => in_range ms | None => false end.

(** What [toLogEntry] returns on such a record, given the UUID. *)
Definition normalised (uuid : string) (l : value) : StreamLogNormalized :=
mkEntry uuid (iso_of (match time_of l with Some ms => ms | None => 0 end)) (raw_level l)
        (or_else (prop l "appName") (VStr "default")) (prop l "message") (spread l).

(** An incremental message that carries exactly one record, in a shape the
    handler accepts, which [toLogEntry] normalises. *)
Definition accepted (m : value) : bool :=
negb (is_initial m) &&
match carried m with Some r => normalisable r | None => false end.

(** The entries of the records carried by the messages [ms], the first one
    drawing UUID number [u]. *)
Fixpoint window_of (u : nat) (ms : list value) : list StreamLogNormalized :=
match ms with
| [] => []
| m :: ms' => normalised (randomUUID u) (record_of m) :: window_of (S u) ms'
end.

(** The i-th record of a numbered stream, sent alone as the specification
    has a single record: an object, here without [keyId]. *)
Definition bare (i : nat) : value :=
VObj [("type", VStr "info"); ("message", VStr "m"); ("timestamp", VNum (Z.of_nat i))].

(** The claim on the window as the specification words it, for messages
    [ms] that are each one record: fed into the empty window, they leave
    5000 entries. *)
Definition window_claim (ms : list value) (u : nat) : Prop :=
length (data (receive (map Normal ms) (subscribed u)).2) = cap.

End Model.
End GetStream.

(** *** [createLogger]: defaults and the typed helpers *)

Module CreateLogger.

(** [LoggerConfig]: [appName] and [environment] are optional. *)
Record LoggerConfig := mkConfig {
  apiKey : string;
  appName : value;
  environment : value
}.

Section Model.

Variable config : LoggerConfig.

(** [process.env.NODE_ENV]: a string, or [undefined]. *)
Variable NODE_ENV : value.

(** The payload handed to the transport: an object literal. *)
Definition LogPayload : Type := list (string * value).

(** A destructuring default: it replaces [undefined] only. *)
Definition default_to (d v : value) : value :=
match v with VUndefined => d | _ => v end.

(** The object literal [finalPayload] of [send]. *)
Definition finalPayload (payload : value) : LogPayload :=
[("type", default_to (VStr "info") (prop payload "type"));
 ("message", prop payload "message");
 ("importance", prop payload "importance");
 ("subsystem", prop payload "subsystem");
 ("operation", prop payload "operation");
 ("service", prop payload "service");
 ("track", prop payload "track");
 ("security", prop payload "security");
 ("metrics", prop payload "metrics");
 ("timestamps", prop payload "timestamps");
 ("appName",
  or_else (or_else (prop payload "appName") (appName config)) (VStr "default"));
 ("environment",
  or_else (or_else (or_else (prop payload "environment") (environment config)) NODE_ENV)
          (VStr "development"))].

(** [const send = async (payload) => ...]: destructuring [undefined] or
    [null] throws; otherwise the payload built goes to [transport.send]. *)
Definition send (payload : value) (now : Z) : Eff (Transport.world LogPayload) unit :=
if nullish payload
then throw (Exn "TypeError" "Cannot destructure payload as it is undefined or null")
else Transport.send (finalPayload payload) now.

(** [{ ...o, k: v }]: [k] keeps its place when [o] has it, and comes last
    otherwise. *)
Fixpoint set_field (k : string) (v : value) (fs : list (string * value))
  : list (string * value) :=
match fs with
| [] => [(k, v)]
| (k', v') :: fs' =>
    if String.eqb k' k then (k, v) :: fs' else (k', v') :: set_field k v fs'
end.

(** [createTypeMethod(type)]: [(payload) => send({ ...payload, type })]. *)
Definition createTypeMethod (type : string) (payload : value) (now : Z)
  : Eff (Transport.world LogPayload) unit :=
send (VObj (set_field "type" (VStr type) (spread payload))) now.

(** The keys of every payload the logger hands on. *)
Definition payload_keys : list string :=
["type"; "message"; "importance"; "subsystem"; "operation"; "service"; "track";
 "security"; "metrics"; "timestamps"; "appName"; "environment"].

(** The keys [send] copies from the caller's payload as they are. *)
Definition copied_keys : list string :=
["message"; "importance"; "subsystem"; "operation"; "service"; "track";
 "security"; "metrics"; "timestamps"].

End Model.
End CreateLogger.

(** ** Part II: properties *)

(** *** The transport *)

Section TransportFacts.
Import Transport.
Context {P : Type}.
Implicit Types (w : world P) (a : action P) (acts : list (action P)).

Ltac world_cases w :=
  destruct w as [b0 t0 s0 f0 pe0 fr0 po0 er0 ep0 ex0]; simpl in *; subst.

(** **** The equations of [send], [flush] and the shutdown handler *)

Lemma send_ignored w p now :
  shuttingDown w = true -> send p now w = (Normal tt, w).
Proof. intros H. world_cases w. reflexivity. Qed.

Lemma send_arms w p now :
  shuttingDown w = false -> timer w = None ->
  send p now w =
    (Normal tt,
     mkWorld (buffer w ++ [mkEvent p now]) (Some (fresh w)) false (isFlushing w)
             (pending w ++ [fresh w]) (S (fresh w)) (posted w) (errors w)
             (exitPending w) (exited w)).
Proof. intros H1 H2. world_cases w. reflexivity. Qed.

Lemma send_coalesces w p now h :
  shuttingDown w = false -> timer w = Some h ->
  send p now w = (Normal tt, set_buffer (buffer w ++ [mkEvent p now]) w).
Proof. intros H1 H2. world_cases w. reflexivity. Qed.

Lemma send_frame w p now :
  let w' := (send p now w).2 in
  isFlushing w' = isFlushing w /\ posted w' = posted w /\ errors w' = errors w /\
  shuttingDown w' = shuttingDown w /\ exited w' = exited w /\
  exitPending w' = exitPending w.
Proof. world_cases w. destruct s0; [done|]. by destruct t0. Qed.

Lemma flush_skipped w :
  isFlushing w = true -> flush_begin w = (Normal Skipped, w).
Proof. intros H. world_cases w. reflexivity. Qed.

Lemma flush_empty w :
  isFlushing w = false -> buffer w = [] ->
  flush_begin w =
    (Normal Empty,
     mkWorld [] None (shuttingDown w) false (disarmed w) (fresh w) (posted w)
             (errors w) (exitPending w) (exited w)).
Proof. intros H1 H2. world_cases w. unfold disarmed. by destruct t0. Qed.

Lemma flush_sends w :
  isFlushing w = false -> buffer w ≠ [] ->
  flush_begin w =
    (Normal (Awaiting (buffer w)),
     mkWorld [] None (shuttingDown w) true (disarmed w) (fresh w)
             (posted w ++ [buffer w]) (errors w) (exitPending w) (exited w)).
Proof.
  intros H1 H2. world_cases w. unfold disarmed.
  destruct b0 as [|e b0]; [done|]. by destruct t0.
Qed.

Lemma flush_resume_eq w o :
  flush_resume o w =
    (Normal tt,
     mkWorld (buffer w) (timer w) (shuttingDown w) false (pending w) (fresh w)
             (posted w) (errors w ++ logged o) (exitPending w) (exited w)).
Proof.
  world_cases w. destruct o as [[]|e]; [|done].
  unfold flush_resume, tryCatch, await, bind, modify, set_isFlushing. simpl.
  by rewrite app_nil_r.
Qed.

Lemma shutdown_ignored w sig :
  shuttingDown w = true -> shutdownHandler_begin sig w = (Normal Ignored, w).
Proof. intros H. world_cases w. reflexivity. Qed.

Lemma shutdown_acts w sig :
  shuttingDown w = false ->
  shutdownHandler_begin sig w =
    (let r := flush_begin (set_shuttingDown true w) in
     match r.1 with
     | Normal f => (Normal (Acted f), r.2)
     | Throw e => (Throw e, r.2)
     end).
Proof.
  intros H. world_cases w. unfold shutdownHandler_begin, bind, gets, modify, ret. simpl.
  by destruct (flush_begin _) as [[f|e] w'].
Qed.

(** **** The invariant of the reachable states *)

Lemma filter_ne_armed (pend : list handle) (h : handle) :
  (forall h', h' ∈ pend -> Some h = Some h') ->
  filter (fun h' => h' ≠ h) pend = [].
Proof.
  intros Hall. induction pend as [|x pend IH]; [done|].
  rewrite filter_cons. destruct (decide (x ≠ h)) as [Hne|_].
  - exfalso. apply Hne. specialize (Hall x (list_elem_of_here _ _)). congruence.
  - apply IH. intros h' Hin. apply Hall. by apply list_elem_of_further.
Qed.

Lemma disarmed_nil w : inv w -> disarmed w = [].
Proof.
  intros [_ Ha _ _]. unfold disarmed. destruct (timer w) as [h|] eqn:Ht.
  - by apply filter_ne_armed.
  - destruct (pending w) as [|x l]; [done|].
    specialize (Ha x (list_elem_of_here _ _)). done.
Qed.

Lemma world_inv_init : inv (@init P).
Proof. split; simpl; try done. intros h Hin. by apply elem_of_nil in Hin. Qed.

Lemma world_inv_flush w : inv w -> inv (flush_begin w).2.
Proof.
  intros Hi. destruct (isFlushing w) eqn:Hfl.
  - by rewrite flush_skipped.
  - pose proof (disarmed_nil w Hi) as Hdis. destruct Hi as [Hd Ha Hf He].
    destruct (decide (buffer w = [])) as [Hb|Hb].
    + rewrite flush_empty by done. rewrite Hdis.
      split; simpl; try done.
      * intros h Hin. by apply elem_of_nil in Hin.
      * intros Hep. destruct (He Hep) as [_ ?]. congruence.
    + rewrite flush_sends by done. rewrite Hdis.
      split; simpl; try done.
      * intros h Hin. by apply elem_of_nil in Hin.
      * intros Hep. destruct (He Hep) as [? _]. done.
Qed.

Lemma world_inv_fired w h :
  inv w -> inv (set_pending (filter (fun h' => h' ≠ h) (pending w)) w).
Proof.
  intros [Hd Ha Hf He]. split; simpl; try done.
  intros h' Hin. apply Ha. apply list_elem_of_filter in Hin. tauto.
Qed.

Lemma world_inv_step a w : inv w -> inv (step a w).
Proof.
  intros Hi. unfold step.
  destruct (exited w) eqn:Hex; [done|].
  destruct a as [p now|h|o|sig].
  - (* send *)
    destruct (shuttingDown w) eqn:Hsd; [by rewrite send_ignored|].
    destruct Hi as [Hd Ha Hf He].
    destruct (timer w) as [h|] eqn:Ht.
    + rewrite (send_coalesces w p now h) by done.
      split; simpl; rewrite ?Ht; done.
    + rewrite send_arms by done. split; simpl; try done.
      * intros h Hin. apply elem_of_app in Hin as [Hin|Hin].
        -- specialize (Ha h Hin). congruence.
        -- apply list_elem_of_singleton in Hin. by subst.
      * intros h [= <-]. lia.
      * intros Hep. destruct (He Hep). congruence.
  - (* a timer expires *)
    destruct (decide (h ∈ pending w)); [|done].
    unfold fire, bind, modify. simpl.
    apply world_inv_flush. by apply world_inv_fired.
  - (* the request settles *)
    destruct (isFlushing w) eqn:Hfl; [|done].
    rewrite flush_resume_eq. simpl.
    destruct Hi as [Hd Ha Hf He].
    destruct (exitPending w) eqn:Hep; simpl; split; simpl; done.
  - (* a signal *)
    destruct (shuttingDown w) eqn:Hsd; [by rewrite shutdown_ignored|].
    rewrite shutdown_acts by done.
    assert (Hi' : inv (set_shuttingDown true w)).
    { destruct Hi as [Hd Ha Hf He]. split; simpl; try done.
      intros Hep. destruct (He Hep). congruence. }
    pose proof (world_inv_flush _ Hi') as Hi''.
    destruct (isFlushing w) eqn:Hfl.
    + rewrite flush_skipped by done. simpl.
      destruct Hi' as [Hd Ha Hf He]. split; simpl in *; done.
    + destruct (decide (buffer w = [])) as [Hb|Hb].
      * rewrite flush_empty in * by done. simpl in *.
        destruct Hi'' as [Hd Ha Hf He]. split; simpl in *; done.
      * rewrite flush_sends in * by done. simpl in *.
        destruct Hi'' as [Hd Ha Hf He]. split; simpl in *; done.
Qed.

Lemma world_reachable_inv w : reachable w -> inv w.
Proof. induction 1; [apply world_inv_init | by apply world_inv_step]. Qed.

(** **** Runs of calls *)

Lemma interval_run acts : forall w,
  shuttingDown w = false -> exited w = false -> exitPending w = false ->
  Forall (fun a => in_interval a = true) acts ->
  let w' := run acts w in
  shuttingDown w' = false /\ exited w' = false /\ exitPending w' = false /\
  posted w' = posted w /\ buffer w' = buffer w ++ appended acts /\
  match timer w, appended acts with
  | None, _ :: _ =>
      timer w' = Some (fresh w) /\ pending w' = pending w ++ [fresh w] /\
      fresh w' = S (fresh w)
  | _, _ => timer w' = timer w /\ pending w' = pending w /\ fresh w' = fresh w
  end.
Proof.
  induction acts as [|a acts IH]; intros w Hsd Hex Hep Hall; simpl.
  - rewrite app_nil_r. by destruct (timer w).
  - apply Forall_cons in Hall as [Ha Hall].
    destruct a as [p now|h|o|sig]; try discriminate Ha.
    + (* send *)
      assert (Hstep : step (ASend p now) w = (send p now w).2)
        by (unfold step; by rewrite Hex).
      fold (run acts (step (ASend p now) w)). rewrite Hstep.
      destruct (timer w) as [h|] eqn:Ht.
      * rewrite (send_coalesces w p now h) by done. cbn [snd].
        specialize (IH (set_buffer (buffer w ++ [mkEvent p now]) w) Hsd Hex Hep Hall).
        simpl in IH. rewrite Ht in IH.
        destruct IH as (? & ? & ? & ? & Hb & Ht').
        rewrite <- app_assoc in Hb. simpl in Hb.
        repeat split; try done.
        all: tauto.
      * rewrite send_arms by done. cbn [snd].
        match goal with |- context [run acts ?w1] =>
          specialize (IH w1 eq_refl Hex Hep Hall) end.
        simpl in IH. destruct IH as (? & ? & ? & ? & Hb & Ht').
        rewrite <- app_assoc in Hb. simpl in Hb.
        repeat split; try done.
        all: destruct (appended acts); tauto.
    + (* the request of an earlier flush settles *)
      fold (run acts (step (ASettle o) w)).
      assert (Hstep : step (ASettle o) w =
                      if isFlushing w then (flush_resume o w).2 else w).
      { unfold step. rewrite Hex. destruct (isFlushing w); [|done].
        rewrite flush_resume_eq. simpl. by rewrite Hep. }
      rewrite Hstep. destruct (isFlushing w); [|by apply IH].
      rewrite flush_resume_eq. simpl.
      match goal with |- context [run acts ?w1] =>
        specialize (IH w1 Hsd Hex Hep Hall) end.
      apply IH.
Qed.

Lemma sends_run acts : forall w,
  shuttingDown w = false -> exited w = false ->
  Forall (fun a => is_send a = true) acts ->
  let w' := run acts w in
  buffer w' = buffer w ++ appended acts /\ isFlushing w' = isFlushing w /\
  posted w' = posted w /\ errors w' = errors w /\ shuttingDown w' = false /\
  exited w' = false /\ exitPending w' = exitPending w.
Proof.
  induction acts as [|a acts IH]; intros w Hsd Hex Hall; simpl.
  - by rewrite app_nil_r.
  - apply Forall_cons in Hall as [Ha Hall].
    destruct a as [p now|h|o|sig]; try discriminate Ha.
    fold (run acts (step (ASend p now) w)).
    assert (Hstep : step (ASend p now) w = (send p now w).2)
      by (unfold step; by rewrite Hex).
    rewrite Hstep.
    destruct (send_frame w p now) as (Hf & Hp & He & Hs & Hx & Hq).
    assert (Hb : buffer (send p now w).2 = buffer w ++ [mkEvent p now]).
    { destruct (timer w) as [h|] eqn:Ht.
      - by rewrite (send_coalesces w p now h).
      - by rewrite send_arms. }
    specialize (IH (send p now w).2). simpl in IH.
    rewrite Hf, Hp, He, Hs, Hx, Hq, Hb in IH.
    rewrite <- app_assoc in IH. by apply IH.
Qed.

Lemma guarded_step a w :
  isFlushing w = true -> no_settle a = true ->
  isFlushing (step a w) = true /\ posted (step a w) = posted w.
Proof.
  intros Hfl Ha. unfold step. destruct (exited w); [done|].
  destruct a as [p now|h|o|sig]; try discriminate Ha.
  - destruct (send_frame w p now) as (-> & -> & _). done.
  - destruct (decide (h ∈ pending w)); [|done].
    unfold fire, bind, modify. simpl. by rewrite flush_skipped.
  - destruct (shuttingDown w) eqn:Hsd; [by rewrite shutdown_ignored|].
    rewrite shutdown_acts by done. by rewrite flush_skipped.
Qed.

Lemma guarded_run acts : forall w,
  isFlushing w = true -> Forall (fun a => no_settle a = true) acts ->
  isFlushing (run acts w) = true /\ posted (run acts w) = posted w.
Proof.
  induction acts as [|a acts IH]; intros w Hfl Hall; [done|].
  apply Forall_cons in Hall as [Ha Hall]. simpl.
  destruct (guarded_step a w Hfl Ha) as [Hfl' Hp'].
  destruct (IH (step a w) Hfl' Hall) as [? ?]. split; [done|congruence].
Qed.

Lemma closing_step a w :
  closing w ->
  closing (step a w) /\ posted (step a w) = posted w /\
  buffer (step a w) = buffer w.
Proof.
  intros [Hsd Hc]. unfold step, closing.
  destruct (exited w) eqn:Hex; [by rewrite Hex; auto|].
  destruct Hc as [?|[Hfl Hep]]; [done|].
  destruct a as [p now|h|o|sig].
  - rewrite send_ignored by done. simpl. auto.
  - destruct (decide (h ∈ pending w)); [|by auto].
    unfold fire, bind, modify. simpl. rewrite flush_skipped by done.
    simpl. auto.
  - rewrite Hfl. rewrite flush_resume_eq. simpl. rewrite Hep. simpl. auto.
  - rewrite shutdown_ignored by done. auto.
Qed.

Lemma closing_run acts : forall w,
  closing w ->
  closing (run acts w) /\ posted (run acts w) = posted w /\
  buffer (run acts w) = buffer w.
Proof.
  induction acts as [|a acts IH]; intros w Hc; [done|]. simpl.
  destruct (closing_step a w Hc) as (Hc' & Hp & Hb).
  destruct (IH (step a w) Hc') as (Hc'' & Hp' & Hb').
  split; [done|]. split; congruence.
Qed.

(** **** The claims *)

(** C1, as amended.  On an instance that is not shutting down, let the timer
    slot be empty and let [acts] be the calls of one flush interval: [send]s,
    at least one, possibly interleaved with the settling of the request of an
    earlier flush.  Then exactly one timer is armed, by the first [send]; the
    buffer holds exactly the appended events in call order; and if no flush
    is executing when that timer expires, its callback runs one flush, whose
    batch is exactly those events in call order, sent in one request, after
    which no timer is armed.  If a flush is executing at that moment, the
    callback's flush returns at the guard: nothing is sent and the events
    stay in the buffer. *)
Theorem flush_interval_batch w acts :
  reachable w -> shuttingDown w = false -> exited w = false -> timer w = None ->
  Forall (fun a => in_interval a = true) acts -> appended acts ≠ [] ->
  let w' := run acts w in
  (pending w' = [fresh w] /\ fresh w' = S (fresh w) /\
   timer w' = Some (fresh w) /\ buffer w' = appended acts /\
   posted w' = posted w) /\
  (isFlushing w' = false ->
   let w'' := step (AFire (fresh w)) w' in
   (fire (fresh w) w').1 = Normal (Awaiting (appended acts)) /\
   posted w'' = posted w' ++ [appended acts] /\
   buffer w'' = [] /\ timer w'' = None /\ pending w'' = [] /\
   forall h, step (AFire h) w'' = w'') /\
  (isFlushing w' = true ->
   let w'' := step (AFire (fresh w)) w' in
   (fire (fresh w) w').1 = Normal Skipped /\
   posted w'' = posted w' /\ buffer w'' = appended acts).
Proof.
  intros Hr Hsd Hex Ht Hall Hne w'.
  pose proof (world_reachable_inv w Hr) as Hi.
  assert (Hep : exitPending w = false).
  { destruct (exitPending w) eqn:Hep; [|done].
    destruct (inv_exit w Hi Hep). congruence. }
  assert (Hpend : pending w = []).
  { destruct (pending w) as [|x l] eqn:Hp; [done|].
    pose proof (inv_armed w Hi x) as Hx. rewrite Hp in Hx.
    specialize (Hx (list_elem_of_here _ _)). congruence. }
  pose proof (interval_run acts w Hsd Hex Hep Hall) as Hrun.
  simpl in Hrun. fold w' in Hrun. rewrite Ht in Hrun.
  rewrite (inv_drained w Hi Ht), Hpend in Hrun. simpl in Hrun.
  destruct (appended acts) as [|e es] eqn:Happ; [done|].
  destruct Hrun as (Hsd' & Hex' & Hep' & Hpo & Hb & Ht' & Hp' & Hf').
  split; [done|].
  assert (Hself : filter (fun h' => h' ≠ fresh w) [fresh w] = []).
  { rewrite filter_cons. by rewrite decide_False by (intros Hn; by apply Hn). }
  assert (Hstep : step (AFire (fresh w)) w' = (fire (fresh w) w').2).
  { unfold step. rewrite Hex', Hp'.
    by rewrite decide_True by apply list_elem_of_here. }
  split; [|intros Hfl w''; subst w''; rewrite Hstep;
           unfold fire, bind, modify; simpl; by rewrite flush_skipped].
  intros Hfl w''.
  assert (Hfire : fire (fresh w) w' =
    (Normal (Awaiting (e :: es)),
     mkWorld [] None false true [] (S (fresh w)) (posted w' ++ [e :: es])
             (errors w') false false)).
  { clearbody w'. world_cases w'. unfold fire, bind, modify. simpl.
    rewrite Hself. rewrite flush_sends by done. unfold disarmed. simpl.
    by rewrite filter_nil. }
  unfold w''. rewrite Hstep, Hfire. simpl. repeat split; done.
Qed.

(** C2.  While a flush is executing, an invocation of [flush] returns at once
    and leaves the whole state as it was: nothing is drained, no request is
    issued.  Hence, from the moment a flush has drained a non-empty buffer,
    whatever runs before its request settles (sends, timers, signals), the
    requests issued are the earlier ones and one request carrying that
    batch; and the guard is cleared when the request settles, fulfilled or
    rejected. *)
Theorem flush_single_flight :
  (forall w, isFlushing w = true -> flush_begin w = (Normal Skipped, w)) /\
  (forall w acts,
     isFlushing w = false -> buffer w ≠ [] ->
     Forall (fun a => no_settle a = true) acts ->
     let w1 := (flush_begin w).2 in
     (flush_begin w).1 = Normal (Awaiting (buffer w)) /\
     isFlushing (run acts w1) = true /\
     flush_begin (run acts w1) = (Normal Skipped, run acts w1) /\
     posted (run acts w1) = posted w ++ [buffer w]) /\
  (forall w o,
     (flush_resume o w).1 = Normal tt /\ isFlushing (flush_resume o w).2 = false).
Proof.
  split; [exact flush_skipped|]. split.
  - intros w acts Hfl Hb Hall w1. subst w1.
    rewrite flush_sends by done. simpl.
    match goal with |- context [run acts ?w1] =>
      destruct (guarded_run acts w1 eq_refl Hall) as [Hfl' Hp'] end.
    repeat split; try done. by apply flush_skipped.
  - intros w o. by rewrite flush_resume_eq.
Qed.

(** C3, as amended.  Both segments of [flush] end normally, whatever the
    state and however the request ends; the guard is cleared, and buffer and
    requests are left as they are.  A rejection of [fetch] is caught and
    logged.  A response is not looked at: whatever its status, nothing is
    logged.  After a flush, however its request ended, the buffer holds
    exactly the events appended since the drain: the batch is not put
    back. *)
Theorem flush_never_throws :
  (forall w, exists st w', flush_begin w = (Normal st, w')) /\
  (forall w o, exists w',
     flush_resume o w = (Normal tt, w') /\ isFlushing w' = false /\
     buffer w' = buffer w /\ posted w' = posted w /\
     errors w' = errors w ++ logged o) /\
  (forall e, logged (delivered (Throw e)) = [e]) /\
  (forall res, logged (delivered (Normal res)) = []) /\
  (forall w acts net,
     isFlushing w = false -> buffer w ≠ [] ->
     shuttingDown w = false -> exited w = false ->
     Forall (fun a => is_send a = true) acts ->
     let w1 := (flush_begin w).2 in
     let w3 := step (ASettle (delivered net)) (run acts w1) in
     buffer w3 = appended acts /\ isFlushing w3 = false /\
     errors w3 = errors w ++ logged (delivered net) /\
     posted w3 = posted w ++ [buffer w]).
Proof.
  split; [|split; [|split; [done|split; [done|]]]].
  - intros w. destruct (isFlushing w) eqn:Hfl.
    + exists Skipped, w. by apply flush_skipped.
    + destruct (decide (buffer w = [])) as [Hb|Hb].
      * eexists _, _. by apply flush_empty.
      * eexists _, _. by apply flush_sends.
  - intros w o. eexists. split; [apply flush_resume_eq|]. by simpl.
  - intros w acts net Hfl Hb Hsd Hex Hall w1 w3. subst w1 w3.
    rewrite flush_sends by done. cbn [snd].
    match goal with |- context [run acts ?w1] =>
      destruct (sends_run acts w1 Hsd Hex Hall)
        as (Hb' & Hfl' & Hp' & He' & Hsd' & Hex' & Hep');
      set (w2 := run acts w1) in * end.
    simpl in *. unfold step. rewrite Hex', Hfl'. rewrite flush_resume_eq. simpl.
    destruct (exitPending w); simpl; by rewrite ?Hb', ?He', ?Hp', ?Hep'.
Qed.

(** C4, as amended.  The first termination signal delivered to an instance
    sets the shutting-down flag and then calls [flush] once, which therefore
    runs with the flag set.  When no flush is executing, that call is the
    final flush: a non-empty buffer is sent as one batch and the buffer is
    empty afterwards; an empty buffer sends nothing and the process exits.
    When an earlier flush is still executing, the call returns at the
    in-progress guard: nothing is sent, the events buffered stay where they
    are, and the process exits.  Whatever follows (further signals, sends,
    timers, settling): every later run of the handler returns at once,
    every [send] returns at once and leaves the state as it was, the buffer
    does not change, and no further request is issued. *)
Theorem shutdown_once w sig :
  shuttingDown w = false -> exited w = false ->
  let w1 := step (ASignal sig) w in
  (exists f w',
     shuttingDown (set_shuttingDown true w) = true /\
     flush_begin (set_shuttingDown true w) = (Normal f, w') /\
     shutdownHandler_begin sig w = (Normal (Acted f), w')) /\
  shuttingDown w1 = true /\
  (isFlushing w = false -> buffer w ≠ [] ->
   posted w1 = posted w ++ [buffer w] /\ buffer w1 = [] /\ exited w1 = false) /\
  (isFlushing w = false -> buffer w = [] ->
   posted w1 = posted w /\ buffer w1 = [] /\ exited w1 = true) /\
  (isFlushing w = true ->
   posted w1 = posted w /\ buffer w1 = buffer w /\ exited w1 = true) /\
  forall acts,
    let w2 := run acts w1 in
    shuttingDown w2 = true /\
    (forall sig', shutdownHandler_begin sig' w2 = (Normal Ignored, w2)) /\
    (forall p now, send p now w2 = (Normal tt, w2)) /\
    posted w2 = posted w1 /\ buffer w2 = buffer w1.
Proof.
  intros Hsd Hex w1.
  assert (Hw1 : closing w1 /\
                (isFlushing w = false -> buffer w ≠ [] ->
                 posted w1 = posted w ++ [buffer w] /\ buffer w1 = [] /\
                 exited w1 = false) /\
                (isFlushing w = false -> buffer w = [] ->
                 posted w1 = posted w /\ buffer w1 = [] /\ exited w1 = true) /\
                (isFlushing w = true ->
                 posted w1 = posted w /\ buffer w1 = buffer w /\ exited w1 = true)).
  { unfold w1, step. rewrite Hex. rewrite shutdown_acts by done.
    destruct (isFlushing w) eqn:Hfl.
    - rewrite flush_skipped by done. simpl. repeat split; try done. by left.
    - destruct (decide (buffer w = [])) as [Hb|Hb].
      + rewrite flush_empty by done. simpl. repeat split; try done. by left.
      + rewrite flush_sends by done. simpl. repeat split; try done. by right. }
  destruct Hw1 as (Hc & Hsent & Hnone & Hguard).
  split.
  { destruct (isFlushing w) eqn:Hfl.
    - exists Skipped, (set_shuttingDown true w).
      split; [done|]. split; [by apply flush_skipped|].
      rewrite shutdown_acts by done. by rewrite flush_skipped.
    - destruct (decide (buffer w = [])) as [Hb|Hb].
      + eexists _, _. split; [done|]. split; [by apply flush_empty|].
        rewrite shutdown_acts by done. by rewrite flush_empty.
      + eexists _, _. split; [done|]. split; [by apply flush_sends|].
        rewrite shutdown_acts by done. by rewrite flush_sends. }
  split; [by destruct Hc|]. split; [done|]. split; [done|]. split; [done|].
  intros acts w2. destruct (closing_run acts w1 Hc) as ([Hsd2 _] & Hp2 & Hb2).
  repeat split; try done.
  - intros sig'. by apply shutdown_ignored.
  - intros p now. by apply send_ignored.
Qed.

End TransportFacts.

Section TransportExamples.
Import Transport.

(** C1, as the specification states it, fails while an earlier flush is
    still executing.  One [send], the expiry of its timer, and then, with
    that request still in flight, one more [send]: a new timer is armed, and
    when it expires its flush finds the guard set, drains nothing and sends
    nothing. *)
Lemma flush_interval_counterexample :
  let w := run [ASend 1%nat 0; AFire 0%nat] (@init nat) in
  let acts := [ASend 2%nat 2100] in
  reachable w /\ shuttingDown w = false /\ exited w = false /\ timer w = None /\
  Forall (fun a => is_send a = true) acts /\
  ~ flush_interval_claim w acts /\
  (fire 1%nat (run acts w)).1 = Normal Skipped /\
  posted (step (AFire 1%nat) (run acts w)) = posted (run acts w) /\
  buffer (step (AFire 1%nat) (run acts w)) = [mkEvent 2%nat 2100].
Proof.
  repeat split.
  - do 2 apply reach_step. apply reach_init.
  - repeat constructor.
  - intros (_ & _ & Hfire & _). vm_compute in Hfire. discriminate Hfire.
Qed.

Lemma flush_interval_batch_witness :
  let w := @init nat in
  let acts := [ASend 1%nat 10; ASend 2%nat 20; ASend 3%nat 30] in
  posted (step (AFire 0%nat) (run acts w)) =
    [[mkEvent 1%nat 10; mkEvent 2%nat 20; mkEvent 3%nat 30]].
Proof.
  intros w acts.
  assert (Hr : reachable w) by apply reach_init.
  assert (Hall : Forall (fun a => in_interval a = true) acts) by repeat constructor.
  assert (Hne : appended acts ≠ []) by discriminate.
  destruct (flush_interval_batch w acts Hr eq_refl eq_refl eq_refl Hall Hne)
    as (_ & Hflush & _).
  destruct (Hflush eq_refl) as (_ & Hposted & _).
  exact Hposted.
Defined.

Lemma flush_single_flight_witness :
  let w := run [ASend 1%nat 10; ASend 2%nat 20] (@init nat) in
  let acts := [AFire 0%nat; ASend 3%nat 30; ASignal SIGTERM] in
  posted (run acts (flush_begin w).2) = [[mkEvent 1%nat 10; mkEvent 2%nat 20]].
Proof.
  intros w acts.
  destruct (@flush_single_flight nat) as (_ & Hflight & _).
  assert (Hb : buffer w ≠ []) by discriminate.
  assert (Hall : Forall (fun a => no_settle a = true) acts) by repeat constructor.
  destruct (Hflight w acts eq_refl Hb Hall) as (_ & _ & _ & Hposted).
  exact Hposted.
Defined.

Lemma flush_never_throws_witness :
  let w := run [ASend 1%nat 10] (@init nat) in
  let acts := [ASend 2%nat 20] in
  let net := Throw (Exn "TypeError" "fetch failed") in
  buffer (step (ASettle (delivered net)) (run acts (flush_begin w).2)) = [mkEvent 2%nat 20] /\
  errors (step (ASettle (delivered net)) (run acts (flush_begin w).2))
    = [Exn "TypeError" "fetch failed"].
Proof.
  intros w acts net.
  destruct (@flush_never_throws nat) as (_ & _ & _ & _ & Hfail).
  assert (Hb : buffer w ≠ []) by discriminate.
  assert (Hall : Forall (fun a => is_send a = true) acts) by repeat constructor.
  destruct (Hfail w acts net eq_refl Hb eq_refl eq_refl Hall) as (Hbuf & _ & Herr & _).
  split; [exact Hbuf | exact Herr].
Defined.

(** C3, as the specification states it, fails on an HTTP error response:
    the request of a flush is answered with status 500, [flush] ends
    normally, logs nothing, and the batch is gone. *)
Lemma flush_http_error_counterexample :
  let w := run [ASend 1%nat 10; AFire 0%nat] (@init nat) in
  let net := Normal (mkResponse false 500) in
  reachable w /\ isFlushing w = true /\ posted w = [[mkEvent 1%nat 10]] /\
  delivery_failed net = true /\
  ~ failure_logged_claim w net /\
  (flush_resume (delivered net) w).1 = Normal tt /\
  errors (step (ASettle (delivered net)) w) = [] /\
  buffer (step (ASettle (delivered net)) w) = [].
Proof.
  repeat split.
  - do 2 apply reach_step. apply reach_init.
  - intros Hclaim. by apply Hclaim.
Qed.

Lemma shutdown_once_witness :
  let w := run [ASend 1%nat 10] (@init nat) in
  posted (run [ASignal SIGTERM; ASend 2%nat 20; ASettle (Normal tt)]
              (step (ASignal SIGINT) w))
    = [[mkEvent 1%nat 10]].
Proof.
  intros w.
  destruct (shutdown_once w SIGINT eq_refl eq_refl) as (_ & _ & Hsent & _ & _ & Hafter).
  assert (Hb : buffer w ≠ []) by discriminate.
  destruct (Hafter [ASignal SIGTERM; ASend 2%nat 20; ASettle (Normal tt)])
    as (_ & _ & _ & Hposted & _).
  rewrite Hposted. by destruct (Hsent eq_refl Hb) as (Hp & _).
Defined.

(** C4, as the specification states it, fails while an earlier flush is
    still executing.  One [send], the expiry of its timer, and then, with
    that request still in flight, one more [send] and a signal: the call of
    [flush] returns at the guard, the second event is not sent, and the
    process exits with it in the buffer. *)
Lemma final_flush_counterexample :
  let w := run [ASend 1%nat 0; AFire 0%nat; ASend 2%nat 2100] (@init nat) in
  reachable w /\ shuttingDown w = false /\ exited w = false /\
  buffer w = [mkEvent 2%nat 2100] /\
  ~ final_flush_claim w SIGTERM /\
  posted (step (ASignal SIGTERM) w) = [[mkEvent 1%nat 0]] /\
  buffer (step (ASignal SIGTERM) w) = [mkEvent 2%nat 2100] /\
  exited (step (ASignal SIGTERM) w) = true.
Proof.
  repeat split.
  - do 3 apply reach_step. apply reach_init.
  - intros Hclaim. assert (Hb : buffer
      (run [ASend 1%nat 0; AFire 0%nat; ASend 2%nat 2100] (@init nat)) ≠ [])
      by discriminate.
    specialize (Hclaim Hb). vm_compute in Hclaim. discriminate Hclaim.
Qed.

End TransportExamples.

(** *** The query cache *)

Section GetLogsFacts.
Import GetLogs.
Implicit Types (s : store) (k : string) (c : caller) (p : promise).

(** **** The equations of [fetchOnce] *)

Lemma fetchOnce_hit s k v :
  cache s !! k = Some v -> fetchOnce_begin k s = (Normal (Hit v), s).
Proof.
  intros H. unfold fetchOnce_begin, bind, gets. simpl. by rewrite H.
Qed.

Lemma fetchOnce_joins s k p :
  cache s !! k = None -> inflight s !! k = Some p ->
  fetchOnce_begin k s = (Normal (Pending p), s).
Proof.
  intros H1 H2. unfold fetchOnce_begin, bind, gets. simpl. by rewrite H1, H2.
Qed.

Lemma fetchOnce_requests s k :
  cache s !! k = None -> inflight s !! k = None ->
  fetchOnce_begin k s =
    (Normal (Pending (length (requests s))),
     mkStore (cache s) (<[k := length (requests s)]> (inflight s))
             (requests s ++ [url k]) (waiters s) (returned s)).
Proof.
  intros H1 H2. unfold fetchOnce_begin, bind, gets. simpl. by rewrite H1, H2.
Qed.

Lemma fetchOnce_resume_eq s k o :
  fetchOnce_resume k o s =
    (o,
     mkStore (match o with Normal v => <[k := v]> (cache s) | Throw _ => cache s end)
             (delete k (inflight s)) (requests s) (waiters s) (returned s)).
Proof. by destruct o. Qed.

(** **** The invariant of the reachable stores *)

Lemma store_inv_empty : inv empty.
Proof.
  split; simpl.
  - intros k [v Hv]. by rewrite lookup_empty in Hv.
  - intros p c k Hin. by apply elem_of_nil in Hin.
  - intros k p Hp. by rewrite lookup_empty in Hp.
Qed.

Lemma store_inv_call c k s : inv s -> inv (call c k s).
Proof.
  intros [He Hw Hi]. unfold call.
  destruct (cache s !! k) as [v|] eqn:Hc.
  { rewrite (fetchOnce_hit s k v) by done. by split. }
  destruct (inflight s !! k) as [p|] eqn:Hp.
  { rewrite (fetchOnce_joins s k p) by done. split; simpl; try done.
    intros p' c' k' Hin. apply elem_of_app in Hin as [Hin|Hin]; [by eapply Hw|].
    apply list_elem_of_singleton in Hin. injection Hin as -> -> ->. by eapply Hi. }
  rewrite fetchOnce_requests by done. split; simpl.
  - intros k' Hk'. destruct (decide (k = k')) as [<-|Hne].
    + rewrite Hc in Hk'. by destruct Hk'.
    + rewrite lookup_insert_ne by done. by apply He.
  - intros p' c' k' Hin. rewrite length_app. simpl.
    apply elem_of_app in Hin as [Hin|Hin].
    + specialize (Hw _ _ _ Hin). lia.
    + apply list_elem_of_singleton in Hin. injection Hin as -> -> ->. lia.
  - intros k' p'. rewrite length_app. simpl.
    destruct (decide (k = k')) as [<-|Hne].
    + rewrite lookup_insert_eq. intros [= <-]. lia.
    + rewrite lookup_insert_ne by done. intros Hp'. specialize (Hi _ _ Hp'). lia.
Qed.

Lemma store_inv_evict k s : inv s -> inv (set_cache (delete k (cache s)) s).
Proof.
  intros [He Hw Hi]. split; simpl; try done.
  intros k' [v Hv]. apply He. exists v.
  destruct (decide (k = k')) as [<-|Hne].
  - by rewrite lookup_delete_eq in Hv.
  - by rewrite lookup_delete_ne in Hv.
Qed.

Lemma store_inv_resume p o ws : forall s, inv s -> inv (resume_all p o ws s).
Proof.
  induction ws as [|[p' [c k]] ws IH]; intros s Hs; simpl; [done|].
  destruct (Nat.eqb p' p); [|by apply IH].
  rewrite fetchOnce_resume_eq. apply IH.
  destruct Hs as [He Hw Hi]. split; simpl; try done.
  - intros k' Hk'. destruct (decide (k = k')) as [<-|Hne].
    + by rewrite lookup_delete_eq.
    + rewrite lookup_delete_ne by done. apply He.
      destruct o; [by rewrite lookup_insert_ne in Hk'|done].
  - intros k' p0 Hp0. destruct (decide (k = k')) as [<-|Hne].
    + by rewrite lookup_delete_eq in Hp0.
    + rewrite lookup_delete_ne in Hp0 by done. by eapply Hi.
Qed.

Lemma store_inv_step a s : inv s -> inv (step a s).
Proof.
  intros Hs. destruct a as [c k|c k|p net]; simpl.
  - by apply store_inv_call.
  - unfold refetch. by apply store_inv_call, store_inv_evict.
  - unfold settle. apply store_inv_resume.
    destruct Hs as [He Hw Hi]. split; simpl; try done.
    intros p' c k Hin. apply list_elem_of_filter in Hin as [_ Hin]. by eapply Hw.
Qed.

Lemma store_reachable_inv s : reachable s -> inv s.
Proof. induction 1; [apply store_inv_empty | by apply store_inv_step]. Qed.

(** **** Settling a promise *)

Lemma resume_all_app p o ws1 ws2 : forall s,
  resume_all p o (ws1 ++ ws2) s = resume_all p o ws2 (resume_all p o ws1 s).
Proof.
  induction ws1 as [|[p' [c k]] ws1 IH]; intros s; simpl; [done|].
  destruct (Nat.eqb p' p); [|by apply IH].
  destruct (fetchOnce_resume k o s) as [r s']. by apply IH.
Qed.

Lemma resume_all_others p o ws : forall s,
  (forall w, w ∈ ws -> w.1 ≠ p) -> resume_all p o ws s = s.
Proof.
  induction ws as [|[p' [c k]] ws IH]; intros s Hall; simpl; [done|].
  assert (Hne : p' ≠ p) by apply (Hall (p', (c, k))), list_elem_of_here.
  apply Nat.eqb_neq in Hne. rewrite Hne. apply IH.
  intros w Hin. by apply Hall, list_elem_of_further.
Qed.

Lemma filter_others p (ws : list (promise * (caller * string))) :
  (forall w, w ∈ ws -> w.1 ≠ p) -> filter (fun w => w.1 ≠ p) ws = ws.
Proof.
  intros Hall. induction ws as [|w ws IH]; [done|].
  rewrite filter_cons. rewrite decide_True by apply Hall, list_elem_of_here.
  f_equal. apply IH. intros w' Hin. by apply Hall, list_elem_of_further.
Qed.

Lemma waiters_older s :
  inv s -> forall w, w ∈ waiters s -> w.1 ≠ length (requests s).
Proof.
  intros Hs [p [c k]] Hin. simpl. pose proof (inv_waiters s Hs p c k Hin). lia.
Qed.

Lemma settle_tail p net s ws tail :
  waiters s = ws ++ tail ->
  (forall w, w ∈ ws -> w.1 ≠ p) -> (forall w, w ∈ tail -> w.1 = p) ->
  settle p net s = resume_all p (settled net) tail (set_waiters ws s).
Proof.
  intros Hw Hws Htail. unfold settle. rewrite Hw, filter_app.
  rewrite (filter_others p ws Hws).
  assert (Hnil : filter (fun w => w.1 ≠ p) tail = []).
  { clear Hw. induction tail as [|w tail IH]; [done|].
    rewrite filter_cons.
    rewrite decide_False by (intros Hn; apply Hn, Htail, list_elem_of_here).
    apply IH. intros w' Hin. by apply Htail, list_elem_of_further. }
  rewrite Hnil, app_nil_r, resume_all_app.
  by rewrite (resume_all_others p _ ws) by done.
Qed.

(** **** The claims *)

(** C5.  For a key that is neither cached nor in flight, two calls of
    [fetchOnce] made before the first one's promise settles issue exactly one
    request and wait on the same promise; when it settles, both calls end
    the same way, the in-flight marker is cleared, and the result is cached
    when the request succeeded; when it failed nothing is cached for the key
    and the next call issues a new request.  For a key that is cached, a call
    returns the cached value and issues no request. *)
Theorem fetch_dedup :
  (forall s k c1 c2,
     reachable s -> cache s !! k = None -> inflight s !! k = None ->
     let p := length (requests s) in
     let s2 := call c2 k (call c1 k s) in
     requests s2 = requests s ++ [url k] /\
     waiters s2 = waiters s ++ [(p, (c1, k)); (p, (c2, k))] /\
     returned s2 = returned s /\
     forall net,
       let s3 := settle p net s2 in
       returned s3 = returned s ++ [(c1, settled net); (c2, settled net)] /\
       requests s3 = requests s ++ [url k] /\
       waiters s3 = waiters s /\
       inflight s3 !! k = None /\
       match settled net with
       | Normal v => cache s3 !! k = Some v
       | Throw _ =>
           cache s3 !! k = None /\
           forall c3, requests (call c3 k s3) = requests s3 ++ [url k]
       end) /\
  (forall s k v c,
     cache s !! k = Some v ->
     call c k s = add_returned c (Normal v) s /\
     requests (call c k s) = requests s).
Proof.
  split.
  - intros s k c1 c2 Hr Hc Hi p s2.
    pose proof (store_reachable_inv s Hr) as Hs.
    assert (Hs2 : s2 =
      mkStore (cache s) (<[k := p]> (inflight s)) (requests s ++ [url k])
              (waiters s ++ [(p, (c1, k)); (p, (c2, k))]) (returned s)).
    { unfold s2, call. rewrite (fetchOnce_requests s k) by done.
      rewrite (fetchOnce_joins _ k p); simpl.
      - unfold set_waiters. simpl. by rewrite <- app_assoc.
      - done.
      - by rewrite lookup_insert_eq. }
    do 3 (split; [by rewrite Hs2|]).
    intros net s3.
    assert (Hs3 : s3 =
      mkStore (match settled net with
               | Normal v => <[k := v]> (cache s) | Throw _ => cache s end)
              (delete k (inflight s)) (requests s ++ [url k]) (waiters s)
              (returned s ++ [(c1, settled net); (c2, settled net)])).
    { unfold s3. rewrite Hs2.
      erewrite (settle_tail p net _ (waiters s)); [|done|by apply waiters_older|].
      2: { intros w Hin. apply elem_of_cons in Hin as [->|Hin]; [done|].
           by apply list_elem_of_singleton in Hin as ->. }
      simpl. rewrite Nat.eqb_refl, !fetchOnce_resume_eq. simpl.
      unfold add_returned. simpl. rewrite <- app_assoc. simpl.
      f_equal.
      - destruct (settled net); [by rewrite insert_insert_eq|done].
      - apply map_eq. intros k'. destruct (decide (k = k')) as [<-|Hne].
        + by rewrite !lookup_delete_eq.
        + by rewrite !lookup_delete_ne, lookup_insert_ne. }
    rewrite Hs3. simpl. repeat split; try done.
    + by rewrite lookup_delete_eq.
    + destruct (settled net) as [v|e]; [by rewrite lookup_insert_eq|].
      split; [done|]. intros c3. unfold call.
      rewrite fetchOnce_requests; simpl; try done. by rewrite lookup_delete_eq.
  - intros s k v c Hc. unfold call. by rewrite (fetchOnce_hit s k v).
Qed.

(** C6, as amended.  [refetch] evicts the cache entry of its key.  A key that
    is cached is never in flight; and whenever no request for the key is in
    flight, [refetch] issues exactly one new request, and what the refetch
    receives is how that request ends.  While a request for the key is in
    flight, [refetch] issues none and waits on that request. *)
Theorem refetch_fresh s k c :
  reachable s ->
  (is_Some (cache s !! k) -> inflight s !! k = None) /\
  (inflight s !! k = None ->
   let p := length (requests s) in
   let s1 := refetch c k s in
   cache s1 !! k = None /\
   requests s1 = requests s ++ [url k] /\
   waiters s1 = waiters s ++ [(p, (c, k))] /\
   forall net,
     returned (settle p net s1) = returned s ++ [(c, settled net)] /\
     requests (settle p net s1) = requests s ++ [url k]) /\
  (forall p,
     inflight s !! k = Some p ->
     let s1 := refetch c k s in
     cache s1 !! k = None /\
     requests s1 = requests s /\ waiters s1 = waiters s ++ [(p, (c, k))]).
Proof.
  intros Hr. pose proof (store_reachable_inv s Hr) as Hs.
  split; [apply (inv_exclusive s Hs)|]. split.
  - intros Hi p s1.
    assert (Hs1 : s1 =
      mkStore (delete k (cache s)) (<[k := p]> (inflight s)) (requests s ++ [url k])
              (waiters s ++ [(p, (c, k))]) (returned s)).
    { unfold s1, refetch, call.
      rewrite fetchOnce_requests; simpl; try done. by rewrite lookup_delete_eq. }
    rewrite Hs1. simpl. split; [by rewrite lookup_delete_eq|].
    repeat split; try done.
    all: erewrite (settle_tail p net _ (waiters s) [(p, (c, k))]);
      [|done|by apply waiters_older
       |by intros w Hin; apply list_elem_of_singleton in Hin as ->].
    all: simpl; rewrite Nat.eqb_refl, fetchOnce_resume_eq; done.
  - intros p Hi s1. unfold s1, refetch, call.
    rewrite (fetchOnce_joins _ k p); simpl; try done.
    all: by rewrite lookup_delete_eq.
Qed.

(** C10.  When [fetchOnce] resolves with the body [b], the hook's data is [b]
    itself when [b] is an array; otherwise [b.logs] when that is not
    nullish; otherwise [b] when it is not nullish; otherwise the empty
    list.  So an object without a [logs] field is stored as data unchanged:
    data can be an object that is no array. *)
Theorem getLogs_data_shape :
  (forall b h,
     fetchLogs_resume (Normal b) h = (Normal tt, mkHook (rows_spec b) false (error h))) /\
  (forall fs h,
     nullish (lookup "logs" fs) = true ->
     data (fetchLogs_resume (Normal (VObj fs)) h).2 = VObj fs /\
     isArray (data (fetchLogs_resume (Normal (VObj fs)) h).2) = false).
Proof.
  split.
  - intros b h. destruct b as [| |b|n|s|xs|fs]; try reflexivity.
    unfold fetchLogs_resume, rows_of, rows_spec, get_opt, coalesce, setData,
      setIsLoading, tryFinally, tryCatch, bind, await, modify.
    simpl. by destruct (lookup "logs" fs).
  - intros fs h Hl.
    unfold fetchLogs_resume, rows_of, get_opt, coalesce, setData,
      setIsLoading, tryFinally, tryCatch, bind, await, modify.
    simpl. by rewrite Hl.
Qed.

(** C6, as the specification states it, fails while a request for the key is
    in flight: [refetch] finds the pending promise and waits on it; no new
    request is issued. *)
Lemma refetch_counterexample :
  let k := "type=error" in
  let s := call 0%nat k empty in
  reachable s /\ ~ refetch_claim s k 1%nat /\
  requests (refetch 1%nat k s) = requests s /\
  waiters (refetch 1%nat k s) = [(0, (0, k)); (0, (1, k))]%nat.
Proof.
  split; [|split; [|split]].
  - apply (reach_step (ACall 0%nat "type=error")), reach_empty.
  - intros Hclaim. vm_compute in Hclaim. discriminate Hclaim.
  - reflexivity.
  - reflexivity.
Qed.

Lemma fetch_dedup_witness :
  let k := "type=error" in
  let body := VArr [VObj [("message", VStr "m")]] in
  let net := Normal (mkResponse true 200%nat EmptyString (Normal body)) in
  returned (settle 0%nat net (call 2%nat k (call 1%nat k empty)))
  = [(1%nat, Normal body); (2%nat, Normal body)].
Proof.
  intros k body net.
  destruct fetch_dedup as [Hdedup _].
  destruct (Hdedup empty k 1%nat 2%nat reach_empty eq_refl eq_refl)
    as (_ & _ & _ & Hsettle).
  destruct (Hsettle net) as (Hret & _).
  exact Hret.
Defined.

Lemma refetch_fresh_witness :
  let k := "type=error" in
  let net := Normal (mkResponse true 200%nat EmptyString (Normal (VArr []))) in
  let s := settle 0%nat net (call 1%nat k empty) in
  requests (refetch 2%nat k s) =
    ["/api/oneminutelogs/logs?type=error"; "/api/oneminutelogs/logs?type=error"].
Proof.
  intros k net s.
  assert (Hr : reachable s).
  { apply (reach_step (ASettle 0%nat net)).
    apply (reach_step (ACall 1%nat k)), reach_empty. }
  destruct (refetch_fresh s k 2%nat Hr) as (_ & Hfresh & _).
  destruct (Hfresh eq_refl) as (_ & Hreq & _).
  exact Hreq.
Defined.

Lemma getLogs_data_shape_witness :
  let b := VObj [("total", VNum 0); ("items", VArr [])] in
  data (fetchLogs_resume (Normal b) (mkHook VNull true None)).2 = b.
Proof.
  intros b. destruct getLogs_data_shape as [_ Hobj].
  destruct (Hobj [("total", VNum 0); ("items", VArr [])] (mkHook VNull true None) eq_refl)
    as [Hdata _].
  exact Hdata.
Defined.

End GetLogsFacts.

(** *** The live stream *)

Section GetStreamFacts.
Import GetStream.
Variable randomUUID : nat -> string.
Variable Date_parse : string -> option Z.

Abbreviation toLogEntry := (GetStream.toLogEntry randomUUID Date_parse).
Abbreviation incoming_of := (GetStream.incoming_of randomUUID Date_parse).
Abbreviation onmessage := (GetStream.onmessage randomUUID Date_parse).
Abbreviation receive := (GetStream.receive randomUUID Date_parse).
Abbreviation entries := (GetStream.entries randomUUID).
Abbreviation stream := (GetStream.stream randomUUID Date_parse).
Abbreviation deliver := (GetStream.deliver randomUUID Date_parse).
Abbreviation accepted := (GetStream.accepted Date_parse).
Abbreviation normalised := (GetStream.normalised Date_parse).
Abbreviation window_of := (GetStream.window_of randomUUID Date_parse).
Implicit Types (h : hook) (l r : value).

(** **** The window cap *)

Lemma trim_drop (xs : list StreamLogNormalized) :
  trim xs = drop (length xs - cap) xs.
Proof.
  unfold trim. destruct (Nat.ltb_spec cap (length xs)) as [Hlt|Hge]; [done|].
  by replace (length xs - cap)%nat with 0%nat by lia.
Qed.

Lemma trim_length (xs : list StreamLogNormalized) : (length (trim xs) <= cap)%nat.
Proof. rewrite trim_drop, length_drop. lia. Qed.

Lemma trim_small (xs : list StreamLogNormalized) :
  (length xs <= cap)%nat -> trim xs = xs.
Proof.
  intros H. rewrite trim_drop. by replace (length xs - cap)%nat with 0%nat by lia.
Qed.

Lemma trim_app (xs ys : list StreamLogNormalized) :
  trim (trim xs ++ ys) = trim (xs ++ ys).
Proof.
  destruct (Nat.le_gt_cases (length xs) cap) as [Hle|Hgt].
  - by rewrite (trim_small xs).
  - rewrite (trim_drop xs), !trim_drop, !length_app, length_drop.
    replace (length xs - (length xs - cap) + length ys - cap)%nat
      with (length ys) by lia.
    replace (length xs + length ys - cap)%nat
      with ((length xs - cap) + length ys)%nat by lia.
    rewrite <- drop_drop. f_equal. rewrite drop_app_le by lia. done.
Qed.

(** **** [toLogEntry] *)

Lemma toLogEntry_frame l h : same_window h (toLogEntry l h).2.
Proof.
  unfold same_window, GetStream.toLogEntry, get, bind, ret, throw, crypto_randomUUID.
  destruct (nullish l); [done|].
  destruct (or_else (prop l "type") (VStr "info")); try done.
  destruct (prop l "timestamp");
    (match goal with
     | |- context [toISOString ?m h] =>
         assert (Hiso : (toISOString m h).2 = h)
           by (unfold toISOString, throw, ret; by repeat case_match);
         destruct (toISOString m h) as [[iso|x] h1]
     end; simpl in *; by subst).
Qed.

Lemma mapM_frame rs : forall h, same_window h (mapM toLogEntry rs h).2.
Proof.
  induction rs as [|r rs IH]; intros h; simpl; [done|].
  unfold bind. pose proof (toLogEntry_frame r h) as Hr.
  destruct (toLogEntry r h) as [[e|x] h1]; simpl in *; [|done].
  pose proof (IH h1) as Hrs.
  destruct (mapM toLogEntry rs h1) as [[es|x] h2]; simpl in *;
    unfold same_window in *;
    destruct Hr as (? & ? & ? & ?), Hrs as (? & ? & ? & ?);
    repeat split; congruence.
Qed.

Lemma toLogEntry_level l h e h' :
  toLogEntry l h = (Normal e, h') -> level e = raw_level l.
Proof.
  unfold raw_level, GetStream.toLogEntry, get, bind, ret, throw, crypto_randomUUID.
  destruct (nullish l); [discriminate|].
  destruct (or_else (prop l "type") (VStr "info")); try discriminate.
  destruct (prop l "timestamp");
    (match goal with
     | |- context [toISOString ?m h] => destruct (toISOString m h) as [[iso|x] h1]
     end; [|discriminate]; by intros [= <- _]).
Qed.

Lemma toISOString_valid {S} (n : Z) (s : S) :
  valid_time n = true ->
  toISOString (Some (n * 1000)) s = (Normal (iso_of (n * 1000)), s).
Proof.
  unfold valid_time, iso_of, toISOString. intros ->.
  by destruct (civil_from_days _) as [[y m] d].
Qed.

Lemma toLogEntry_well_formed l h :
  well_formed l = true ->
  toLogEntry l h = (Normal (entry_of (randomUUID (uuids h)) l), bump h).
Proof.
  unfold well_formed, entry_of, raw_level, timestamp_of. intros Hwf.
  apply andb_prop in Hwf as [Hwf Hts]. apply andb_prop in Hwf as [Hnn Hty].
  apply negb_true_iff in Hnn.
  unfold GetStream.toLogEntry, get, bind, ret, crypto_randomUUID. rewrite Hnn.
  destruct (or_else (prop l "type") (VStr "info")); try discriminate Hty.
  destruct (prop l "timestamp") as [| | |n| | |]; try discriminate Hts.
  by rewrite (toISOString_valid n h Hts).
Qed.

Lemma level_of_default (x : string) : x ∉ levels -> level_of x = "info".
Proof.
  intros Hx. unfold level_of.
  repeat match goal with
  | |- context [String.eqb x ?y] =>
      destruct (String.eqb_spec x y) as [Heq|_];
      [exfalso; apply Hx; rewrite Heq; unfold levels;
       repeat (first [apply list_elem_of_here | apply list_elem_of_further])|]
  end.
  done.
Qed.

Lemma raw_level_default l : ~ recognized l -> raw_level l = "info".
Proof.
  intros Hn. unfold raw_level, or_else.
  destruct (prop l "type") as [| |b|n|s|xs|fs] eqn:Ht; simpl; try done.
  - by destruct b.
  - by destruct (n =? 0).
  - destruct (String.eqb s ""); simpl; [done|].
    apply level_of_default. intros Hin. apply Hn. by exists s.
Qed.

(** **** The message handler *)

Lemma incoming_frame payload h : same_window h (incoming_of payload h).2.
Proof.
  unfold GetStream.incoming_of.
  destruct (truthy payload && isArray (prop payload "logs")); [apply mapM_frame|].
  destruct (isArray payload); [apply mapM_frame|].
  destruct (truthy payload && truthy (prop payload "keyId")); [|done].
  unfold bind, ret. pose proof (toLogEntry_frame payload h) as Hf.
  by destruct (toLogEntry payload h) as [[e|x] h1].
Qed.

Lemma onmessage_parsed payload h :
  onmessage (Normal payload) h =
    match incoming_of payload h with
    | (Normal inc, h1) =>
        (Normal tt,
         mkHook (trim (if is_initial payload then inc else data h ++ inc))
                false (error h1) (connected h1) (uuids h1))
    | (Throw e, h1) => (Throw e, h1)
    end.
Proof.
  unfold GetStream.onmessage, GetStream.es_onmessage, GetStream.render,
    GetStream.updater, setIsLoading, set_data, bind, gets, modify, ret.
  destruct (incoming_of payload h) as [[inc|e] h1]; [|done].
  by destruct (is_initial payload).
Qed.

Lemma onmessage_single m h :
  single_record m = true ->
  onmessage (Normal m) h =
    (Normal tt,
     mkHook (trim (data h ++ [entry_of (randomUUID (uuids h)) (record_of m)])) false
            (error h) (connected h) (S (uuids h))).
Proof.
  unfold single_record, record_of, carried. intros Hs.
  apply andb_prop in Hs as [Hni Hwf]. apply negb_true_iff in Hni.
  rewrite onmessage_parsed, Hni. unfold GetStream.incoming_of.
  destruct (truthy m && isArray (prop m "logs")).
  { destruct (items (prop m "logs")) as [|r [|r' rs]]; try discriminate Hwf.
    simpl. unfold bind, ret. by rewrite toLogEntry_well_formed. }
  destruct (isArray m).
  { destruct (items m) as [|r [|r' rs]]; try discriminate Hwf.
    simpl. unfold bind, ret. by rewrite toLogEntry_well_formed. }
  destruct (truthy m && truthy (prop m "keyId")); [|discriminate Hwf].
  unfold bind, ret. by rewrite toLogEntry_well_formed.
Qed.

Lemma entries_length rs : forall u, length (entries u rs) = length rs.
Proof. induction rs as [|r rs IH]; intros u; simpl; [done|]. by rewrite IH. Qed.

Lemma entries_lookup rs : forall u i m,
  rs !! i = Some m ->
  entries u rs !! i = Some (entry_of (randomUUID (u + i)) (record_of m)).
Proof.
  induction rs as [|r0 rs IH]; intros u i m Hi; [done|].
  destruct i as [|i]; simpl in *.
  - injection Hi as ->. by rewrite Nat.add_0_r.
  - rewrite (IH (S u) i m Hi). do 3 f_equal. lia.
Qed.

Lemma receive_singles rs : forall h,
  Forall (fun r => single_record r = true) rs -> (length (data h) <= cap)%nat ->
  exists h',
    receive (map Normal rs) h = (Normal tt, h') /\
    data h' = trim (data h ++ entries (uuids h) rs) /\
    uuids h' = (uuids h + length rs)%nat /\
    error h' = error h /\ connected h' = connected h.
Proof.
  induction rs as [|r rs IH]; intros h Hall Hlen.
  - exists h. simpl. rewrite app_nil_r, trim_small by done.
    repeat split; (done || lia).
  - apply Forall_cons in Hall as [Hr Hall].
    change (receive (map Normal (r :: rs)) h)
      with (bind (onmessage (Normal r)) (fun _ => receive (map Normal rs)) h).
    unfold bind. rewrite (onmessage_single r h Hr).
    match goal with |- context [receive _ ?h1] =>
      destruct (IH h1 Hall) as (h' & Hrec & Hd & Hu & He & Hc);
        [apply trim_length|] end.
    exists h'. simpl in *. rewrite Hrec, Hd, Hu, He, Hc.
    rewrite trim_app, <- app_assoc. repeat split; (done || lia).
Qed.

(** **** Records with any timestamp [toLogEntry] can read *)

Lemma toISOString_range {S} (ms : Z) (s : S) :
  in_range ms = true -> toISOString (Some ms) s = (Normal (iso_of ms), s).
Proof.
  unfold in_range, iso_of, toISOString. intros ->.
  by destruct (civil_from_days _) as [[y m] d].
Qed.

Lemma toLogEntry_normalisable l h :
  normalisable Date_parse l = true ->
  toLogEntry l h = (Normal (normalised (randomUUID (uuids h)) l), bump h).
Proof.
  unfold normalisable, normalised, typed, time_of, raw_level, parsed_text. intros Hn.
  apply andb_prop in Hn as [Hty Hts]. apply andb_prop in Hty as [Hnn Hty].
  apply negb_true_iff in Hnn.
  unfold GetStream.toLogEntry, get, bind, ret, crypto_randomUUID. rewrite Hnn.
  destruct (or_else (prop l "type") (VStr "info")); try discriminate Hty.
  destruct (prop l "timestamp"); cbv beta iota in Hts;
    first
      [ by rewrite (toISOString_range _ h Hts)
      | match type of Hts with
        | match ?m with Some _ => _ | None => _ end = true =>
            destruct m as [ms|] eqn:Hm; [|discriminate Hts]
        end;
        by rewrite (toISOString_range ms h Hts) ].
Qed.

Lemma onmessage_accepted m h :
  accepted m = true ->
  onmessage (Normal m) h =
    (Normal tt,
     mkHook (trim (data h ++
                   [normalised (randomUUID (uuids h)) (record_of m)]))
            false (error h) (connected h) (S (uuids h))).
Proof.
  unfold accepted, record_of, carried. intros Hs.
  apply andb_prop in Hs as [Hni Hwf]. apply negb_true_iff in Hni.
  rewrite onmessage_parsed, Hni. unfold GetStream.incoming_of.
  destruct (truthy m && isArray (prop m "logs")).
  { destruct (items (prop m "logs")) as [|r [|r' rs]]; try discriminate Hwf.
    simpl. unfold bind, ret. by rewrite toLogEntry_normalisable. }
  destruct (isArray m).
  { destruct (items m) as [|r [|r' rs]]; try discriminate Hwf.
    simpl. unfold bind, ret. by rewrite toLogEntry_normalisable. }
  destruct (truthy m && truthy (prop m "keyId")); [|discriminate Hwf].
  unfold bind, ret. by rewrite toLogEntry_normalisable.
Qed.

Lemma window_of_length rs : forall u,
  length (window_of u rs) = length rs.
Proof. induction rs as [|r rs IH]; intros u; simpl; [done|]. by rewrite IH. Qed.

Lemma window_of_lookup rs : forall u i m,
  rs !! i = Some m ->
  window_of u rs !! i = Some (normalised (randomUUID (u + i)) (record_of m)).
Proof.
  induction rs as [|r0 rs IH]; intros u i m Hi; [done|].
  destruct i as [|i]; simpl in *.
  - injection Hi as ->. by rewrite Nat.add_0_r.
  - rewrite (IH (S u) i m Hi). do 3 f_equal. lia.
Qed.

Lemma receive_accepted rs : forall h,
  Forall (fun r => accepted r = true) rs -> (length (data h) <= cap)%nat ->
  exists h',
    receive (map Normal rs) h = (Normal tt, h') /\
    data h' = trim (data h ++ window_of (uuids h) rs) /\
    uuids h' = (uuids h + length rs)%nat /\
    error h' = error h /\ connected h' = connected h.
Proof.
  induction rs as [|r rs IH]; intros h Hall Hlen.
  - exists h. simpl. rewrite app_nil_r, trim_small by done.
    repeat split; (done || lia).
  - apply Forall_cons in Hall as [Hr Hall].
    change (receive (map Normal (r :: rs)) h)
      with (bind (onmessage (Normal r)) (fun _ => receive (map Normal rs)) h).
    unfold bind. rewrite (onmessage_accepted r h Hr).
    match goal with |- context [receive _ ?h1] =>
      destruct (IH h1 Hall) as (h' & Hrec & Hd & Hu & He & Hc);
        [apply trim_length|] end.
    exists h'. simpl in *. rewrite Hrec, Hd, Hu, He, Hc.
    rewrite trim_app, <- app_assoc. repeat split; (done || lia).
Qed.

Lemma stream_unmounted msgs : stream msgs Unmounted = Unmounted.
Proof. induction msgs as [|m msgs IH]; [done|]. exact IH. Qed.

(** A run of message events and the component: the run ends with [Throw]
    exactly when the component is unmounted. *)
Lemma stream_receive msgs : forall h,
  stream msgs (Mounted h) =
    match receive msgs h with
    | (Normal _, h') => Mounted h'
    | (Throw _, _) => Unmounted
    end.
Proof.
  induction msgs as [|m msgs IH]; intros h; [done|].
  change (stream (m :: msgs) (Mounted h)) with (stream msgs (deliver m (Mounted h))).
  change (receive (m :: msgs) h)
    with (bind (onmessage m) (fun _ => receive msgs) h).
  unfold bind, deliver. destruct (onmessage m h) as [[[]|e] h1]; [apply IH|].
  apply stream_unmounted.
Qed.

(** **** The claims *)

(** C7, as amended.  The window React holds has at most 5000 entries after
    any message event, decoded or not, when it had at most 5000 before;
    after an event whose render commits, the window is what remains of the
    old window followed by the incoming records (of the incoming records
    alone, for an initial message) once the oldest entries are evicted from
    the front; and 5001 incremental messages, each carrying one record that
    [toLogEntry] normalises in a shape the handler accepts (an envelope with
    a one-element [logs] array, a one-element array, or an object with a
    truthy [keyId]), fed into the empty window, leave exactly 5000 entries,
    those of records 2 to 5001 in arrival order. *)
Theorem window_bounded :
  (forall parsed h,
     (length (data h) <= cap)%nat ->
     (length (data (onmessage parsed h).2) <= cap)%nat) /\
  (forall payload h h',
     onmessage (Normal payload) h = (Normal tt, h') ->
     (length (data h') <= cap)%nat /\
     exists incoming evicted,
       (incoming_of payload h).1 = Normal incoming /\
       (if is_initial payload then incoming else data h ++ incoming)
         = evicted ++ data h') /\
  (forall rs u,
     length rs = S cap -> Forall (fun r => accepted r = true) rs ->
     exists h',
       receive (map Normal rs) (subscribed u) = (Normal tt, h') /\
       stream (map Normal rs) (Mounted (subscribed u)) = Mounted h' /\
       data h' = drop 1 (window_of u rs) /\
       length (data h') = cap /\
       forall i m, rs !! S i = Some m ->
                 data h' !! i = Some (normalised (randomUUID (u + S i)) (record_of m))).
Proof.
  split; [|split].
  - intros [payload|err] h Hlen; [|done].
    rewrite onmessage_parsed.
    pose proof (incoming_frame payload h) as (Hd & _).
    destruct (incoming_of payload h) as [[inc|e] h1]; simpl in *.
    + apply trim_length.
    + by rewrite Hd.
  - intros payload h h'. rewrite onmessage_parsed.
    destruct (incoming_of payload h) as [[inc|e] h1]; [|discriminate].
    intros [= <-]. simpl. split; [apply trim_length|].
    exists inc. eexists. split; [done|].
    rewrite trim_drop. by rewrite take_drop.
  - intros rs u Hlen Hall.
    destruct (receive_accepted rs (subscribed u) Hall) as (h' & Hrec & Hd & _);
      [simpl; unfold cap; lia|].
    simpl in Hd. rewrite trim_drop, window_of_length, Hlen in Hd.
    replace (S cap - cap)%nat with 1%nat in Hd by lia.
    exists h'. split; [done|]. split; [by rewrite stream_receive, Hrec|].
    split; [done|]. split.
    + rewrite Hd, length_drop, window_of_length, Hlen. lia.
    + intros i m Hi. rewrite Hd, lookup_drop. simpl.
      by apply window_of_lookup.
Qed.

(** C8.  On the message [{type: "initial", logs: [{type: "ERROR", message:
    "m", timestamp: 1700000000}]}] the window becomes exactly one record,
    whose level is "error" and whose [ts] is the ISO form of epoch second
    1700000000, that is 2023-11-14T22:13:20.000Z.  For any record whose raw
    type is not one of the names of the level set (in any case of letters),
    or is missing, the level [toLogEntry] gives is "info"; and [toLogEntry]
    does return on such a record when it is well formed. *)
Theorem initial_message_normalised :
  (forall h, exists e,
     onmessage (Normal example_message) h =
       (Normal tt, mkHook [e] false (error h) (connected h) (S (uuids h))) /\
     level e = "error" /\
     ts e = iso_of (1700000000 * 1000) /\
     ts e = "2023-11-14T22:13:20.000Z") /\
  (forall l h e h',
     ~ recognized l -> toLogEntry l h = (Normal e, h') -> level e = "info") /\
  (forall l h,
     ~ recognized l -> well_formed l = true ->
     exists e, toLogEntry l h = (Normal e, bump h) /\ level e = "info").
Proof.
  split; [|split].
  - intros h. eexists. split; [reflexivity|]. by vm_compute.
  - intros l h e h' Hn He. rewrite (toLogEntry_level l h e h' He).
    by apply raw_level_default.
  - intros l h Hn Hwf. eexists. split; [by apply toLogEntry_well_formed|].
    simpl. by apply raw_level_default.
Qed.


End GetStreamFacts.

Section GetStreamExamples.
Import GetStream.


Lemma window_bounded_witness :
  let randomUUID := fun n : nat => pretty n in
  let Date_parse := fun _ : string => @None Z in
  let rs := map numbered (seq 1 (S cap)) in
  exists h',
    receive randomUUID Date_parse (map Normal rs) (subscribed 0) = (Normal tt, h') /\
    length (data h') = cap.
Proof.
  intros randomUUID Date_parse rs.
  destruct (window_bounded randomUUID Date_parse) as (_ & _ & Hfeed).
  assert (Hlen : length rs = S cap) by (vm_compute; reflexivity).
  assert (Hall : Forall (fun r => accepted Date_parse r = true) rs).
  { apply Forall_forall. intros r Hin. apply list_elem_of_In in Hin.
    revert r Hin. apply forallb_forall. vm_compute. reflexivity. }
  destruct (Hfeed rs 0%nat Hlen Hall) as (h' & Hrec & _ & _ & Hsize & _).
  exists h'. split; [exact Hrec | exact Hsize].
Defined.

(** C7, as the specification states it, fails on single records sent as
    objects without [keyId]: 5001 well-formed records, each alone in its
    message, leave the window empty. *)
Lemma window_counterexample :
  let randomUUID := fun n : nat => pretty n in
  let Date_parse := fun _ : string => @None Z in
  let ms := map bare (seq 1 (S cap)) in
  length ms = S cap /\
  forallb well_formed ms = true /\
  forallb (fun m => negb (is_initial m)) ms = true /\
  ~ window_claim randomUUID Date_parse ms 0 /\
  receive randomUUID Date_parse (map Normal ms) (subscribed 0)
    = (Normal tt, mkHook [] false None true 0).
Proof.
  intros randomUUID Date_parse ms.
  assert (Hrun : receive randomUUID Date_parse (map Normal ms) (subscribed 0)
                 = (Normal tt, mkHook [] false None true 0))
    by (vm_compute; reflexivity).
  split; [by vm_compute|]. split; [by vm_compute|]. split; [by vm_compute|].
  split; [|exact Hrun].
  unfold window_claim. rewrite Hrun. simpl. unfold cap. discriminate.
Qed.

Lemma initial_message_normalised_witness :
  let randomUUID := fun n : nat => pretty n in
  let Date_parse := fun _ : string => @None Z in
  let l := VObj [("type", VStr "TRACE"); ("timestamp", VNum 0)] in
  exists e,
    toLogEntry randomUUID Date_parse l (subscribed 0) = (Normal e, bump (subscribed 0)) /\
    level e = "info".
Proof.
  intros randomUUID Date_parse l.
  destruct (initial_message_normalised randomUUID Date_parse) as (_ & _ & Hdefault).
  apply Hdefault; [|reflexivity].
  intros (s & Hs & Hin). injection Hs as <-.
  unfold levels in Hin. simpl in Hin.
  repeat (apply elem_of_cons in Hin as [Hin|Hin]; [discriminate Hin|]).
  by apply elem_of_nil in Hin.
Defined.


End GetStreamExamples.

(** *** The transport, continued *)

Section TransportMore.
Import Transport.
Context {P : Type}.
Implicit Types (w : world P) (a : action P) (acts : list (action P)).

Lemma filter_ne_self (h : handle) : filter (fun h' => h' ≠ h) [h] = [].
Proof. rewrite filter_cons. by rewrite decide_False by (intros Hn; by apply Hn). Qed.

Lemma step_send w p now :
  exited w = false -> step (ASend p now) w = (send p now w).2.
Proof. intros Hex. unfold step. by rewrite Hex. Qed.

Lemma reachable_run acts : forall w, reachable w -> reachable (run acts w).
Proof.
  induction acts as [|a acts IH]; intros w Hr; [done|].
  simpl. apply IH. by apply reach_step.
Qed.

(** What one call of [flush] does to the timers, the requests and the
    buffer, in one statement for its three outcomes. *)
Lemma flush_begin_cases w :
  (isFlushing w = true /\ flush_begin w = (Normal Skipped, w)) \/
  (isFlushing w = false /\ buffer w = [] /\
   flush_begin w =
     (Normal Empty,
      mkWorld [] None (shuttingDown w) false (disarmed w) (fresh w) (posted w)
              (errors w) (exitPending w) (exited w))) \/
  (isFlushing w = false /\ buffer w ≠ [] /\
   flush_begin w =
     (Normal (Awaiting (buffer w)),
      mkWorld [] None (shuttingDown w) true (disarmed w) (fresh w)
              (posted w ++ [buffer w]) (errors w) (exitPending w) (exited w))).
Proof.
  destruct (isFlushing w) eqn:Hfl.
  - left. split; [done|]. by apply flush_skipped.
  - right. destruct (decide (buffer w = [])) as [Hb|Hb].
    + left. by rewrite flush_empty.
    + right. by rewrite flush_sends.
Qed.

Lemma disarmed_one_timer w : one_timer w -> disarmed w = [].
Proof.
  unfold disarmed. intros [Hp|(h & Hp & Ht)].
  - rewrite Hp. by destruct (timer w).
  - rewrite Hp, Ht. apply filter_ne_self.
Qed.

Lemma one_timer_flush w : one_timer w -> one_timer (flush_begin w).2.
Proof.
  intros Ho. pose proof (disarmed_one_timer w Ho) as Hd.
  destruct (flush_begin_cases w) as [[_ ->]|[(_ & _ & ->)|(_ & _ & ->)]]; simpl;
    [done| |]; rewrite Hd; by left.
Qed.

Lemma one_timer_step a w : one_timer w -> one_timer (step a w).
Proof.
  intros Ho. unfold step. destruct (exited w) eqn:Hex; [done|].
  destruct a as [p now|h|o|sig].
  - destruct (shuttingDown w) eqn:Hsd; [by rewrite send_ignored|].
    destruct (timer w) as [h|] eqn:Ht.
    + rewrite (send_coalesces w p now h) by done.
      exact Ho.
    + rewrite send_arms by done. unfold one_timer in *. simpl.
      destruct Ho as [->|(h & _ & ?)]; [|congruence]. right. by exists (fresh w).
  - destruct (decide (h ∈ pending w)) as [Hin|]; [|done].
    unfold fire, bind, modify. simpl. apply one_timer_flush.
    unfold one_timer in *. simpl.
    destruct Ho as [Hp|(h' & Hp & Ht)]; rewrite Hp in *; [by left|].
    apply list_elem_of_singleton in Hin as ->. left. apply filter_ne_self.
  - destruct (isFlushing w); [|done]. rewrite flush_resume_eq. simpl.
    by destruct (exitPending w).
  - destruct (shuttingDown w) eqn:Hsd; [by rewrite shutdown_ignored|].
    rewrite shutdown_acts by done.
    assert (Ho' : one_timer (set_shuttingDown true w)) by done.
    pose proof (one_timer_flush _ Ho') as Hf.
    destruct (flush_begin (set_shuttingDown true w)) as [[[| |b]|e] w']; simpl in *; done.
Qed.

Lemma one_timer_run acts : forall w, one_timer w -> one_timer (run acts w).
Proof.
  induction acts as [|a acts IH]; intros w Ho; [done|].
  simpl. by apply IH, one_timer_step.
Qed.

(** X1.  After any sequence of calls, timer expiries, settlements and
    signals on a new transport, at most one timer is armed; an armed timer is
    the one held in [this.timer]; and when [this.timer] is empty the buffer
    is empty and no timer is armed. *)
Theorem single_pending_timer acts :
  let w := run acts (@init P) in
  (length (pending w) <= 1)%nat /\
  (forall h, h ∈ pending w -> timer w = Some h) /\
  (timer w = None -> buffer w = [] /\ pending w = []).
Proof.
  intros w.
  assert (Ho : one_timer w) by (apply one_timer_run; by left).
  assert (Hi : inv w) by (apply world_reachable_inv, reachable_run, reach_init).
  split; [|split].
  - destruct Ho as [->|(h & -> & _)]; simpl; lia.
  - apply (inv_armed w Hi).
  - intros Ht. split; [by apply (inv_drained w Hi)|].
    destruct Ho as [?|(h & _ & ?)]; [done|congruence].
Qed.

(** **** Conservation of the events *)

Lemma flush_conserves w :
  let w' := (flush_begin w).2 in
  concat (posted w') ++ buffer w' = concat (posted w) ++ buffer w /\
  shuttingDown w' = shuttingDown w /\ exited w' = exited w /\
  exitPending w' = exitPending w /\ timer w' = (if isFlushing w then timer w else None).
Proof.
  destruct (flush_begin_cases w) as [[Hfl ->]|[(Hfl & Hb & ->)|(Hfl & Hb & ->)]];
    simpl; rewrite Hfl; repeat split; try done.
  - by rewrite Hb.
  - by rewrite concat_app, app_nil_r; simpl; rewrite app_nil_r.
Qed.

Lemma step_conserves a w :
  shuttingDown w = false -> exited w = false -> exitPending w = false ->
  is_signal a = false ->
  let w' := step a w in
  shuttingDown w' = false /\ exited w' = false /\ exitPending w' = false /\
  concat (posted w') ++ buffer w' = concat (posted w) ++ buffer w ++ appended [a].
Proof.
  intros Hsd Hex Hep Ha. unfold step. rewrite Hex.
  destruct a as [p now|h|o|sig]; try discriminate Ha; simpl.
  - destruct (send_frame w p now) as (_ & Hp & _ & Hs & Hx & Hq).
    rewrite Hp, Hs, Hx, Hq. repeat split; try done. f_equal.
    destruct (timer w) as [h|] eqn:Ht.
    + by rewrite (send_coalesces w p now h).
    + by rewrite send_arms.
  - rewrite app_nil_r. destruct (decide (h ∈ pending w)); [|done].
    unfold fire, bind, modify. simpl.
    match goal with |- context [flush_begin ?w0] =>
      destruct (flush_conserves w0) as (Hc & Hs & Hx & Hq & _) end.
    simpl in *. by rewrite Hc, Hs, Hx, Hq.
  - rewrite app_nil_r. destruct (isFlushing w); [|done].
    rewrite flush_resume_eq. simpl. by rewrite Hep.
Qed.

Lemma signal_conserves sig w :
  shuttingDown w = false -> exited w = false ->
  let w' := step (ASignal sig) w in
  closing w' /\ concat (posted w') ++ buffer w' = concat (posted w) ++ buffer w.
Proof.
  intros Hsd Hex. unfold step. rewrite Hex, shutdown_acts by done. unfold closing.
  destruct (flush_begin_cases (set_shuttingDown true w))
    as [[Hfl ->]|[(Hfl & Hb & ->)|(Hfl & Hb & ->)]]; simpl in *.
  - auto.
  - rewrite Hb. auto.
  - rewrite concat_app. simpl. rewrite !app_nil_r. auto.
Qed.

Lemma run_conserves acts : forall w,
  shuttingDown w = false -> exited w = false -> exitPending w = false ->
  concat (posted (run acts w)) ++ buffer (run acts w)
  = concat (posted w) ++ buffer w ++ appended (before_signal acts).
Proof.
  induction acts as [|a acts IH]; intros w Hsd Hex Hep; simpl.
  - by rewrite app_nil_r.
  - fold (run acts (step a w)). destruct (is_signal a) eqn:Ha.
    + destruct a as [| | |sig]; try discriminate Ha.
      destruct (signal_conserves sig w Hsd Hex) as [Hc Heq].
      destruct (closing_run acts _ Hc) as (_ & -> & ->).
      simpl. by rewrite app_nil_r.
    + destruct (step_conserves a w Hsd Hex Hep Ha) as (Hsd' & Hex' & Hep' & Heq).
      rewrite (IH _ Hsd' Hex' Hep'), app_assoc, Heq, <- !app_assoc.
      do 2 f_equal. by destruct a.
Qed.

(** X2.  No event is lost or duplicated: after any run on a new transport,
    the batches handed to [fetch], in request order, followed by the buffer
    are exactly the events of the [send] calls made before the first
    termination signal, in call order. *)
Theorem events_conserved acts :
  let w := run acts (@init P) in
  concat (posted w) ++ buffer w = appended (before_signal acts).
Proof. intros w. unfold w. by rewrite run_conserves. Qed.

(** **** Requests *)

Lemma step_request a w :
  posted (step a w) = posted w \/
  (isFlushing w = false /\ buffer w ≠ [] /\
   posted (step a w) = posted w ++ [buffer w] /\
   buffer (step a w) = [] /\ isFlushing (step a w) = true).
Proof.
  unfold step. destruct (exited w); [by left|].
  destruct a as [p now|h|o|sig].
  - left. by destruct (send_frame w p now) as (_ & -> & _).
  - destruct (decide (h ∈ pending w)); [|by left].
    unfold fire, bind, modify. simpl.
    match goal with |- context [flush_begin ?w0] =>
      destruct (flush_begin_cases w0) as [[Hfl ->]|[(Hfl & Hb & ->)|(Hfl & Hb & ->)]] end;
      simpl in *; [by left|by left|by right].
  - left. destruct (isFlushing w); [|done]. rewrite flush_resume_eq. simpl.
    by destruct (exitPending w).
  - destruct (shuttingDown w) eqn:Hsd; [rewrite shutdown_ignored by done; by left|].
    rewrite shutdown_acts by done.
    destruct (flush_begin_cases (set_shuttingDown true w))
      as [[Hfl ->]|[(Hfl & Hb & ->)|(Hfl & Hb & ->)]]; simpl in *;
      [by left|by left|by right].
Qed.

(** X3.  Whatever runs, a request is issued only by a flush that was not
    already executing and found a non-empty buffer: the request carries the
    whole buffer as its batch, the buffer is empty afterwards and the
    in-progress flag is set. *)
Theorem request_drains_buffer a w :
  posted (step a w) ≠ posted w ->
  isFlushing w = false /\ buffer w ≠ [] /\
  posted (step a w) = posted w ++ [buffer w] /\
  buffer (step a w) = [] /\ isFlushing (step a w) = true.
Proof. intros Hne. by destruct (step_request a w) as [?|?]. Qed.

Lemma nonempty_step a w :
  Forall (fun b => b ≠ []) (posted w) -> Forall (fun b => b ≠ []) (posted (step a w)).
Proof.
  intros Hall. destruct (step_request a w) as [->|(_ & Hb & -> & _)]; [done|].
  apply Forall_app. split; [done|]. by apply Forall_singleton.
Qed.

(** X4.  No request ever carries an empty batch. *)
Theorem no_empty_batch acts :
  Forall (fun b => b ≠ []) (posted (run acts (@init P))).
Proof.
  assert (H : forall w, Forall (fun b : list (Event P) => b ≠ []) (posted w) ->
                        Forall (fun b => b ≠ []) (posted (run acts w))).
  { induction acts as [|a acts IH]; intros w Hw; [done|].
    simpl. by apply IH, nonempty_step. }
  apply H. simpl. constructor.
Qed.

(** **** A timer that expires while a flush is executing *)

(** X5.  A timer that expires while an earlier flush is executing leaves its
    handle in [this.timer].  From then on, as long as no signal arrives, no
    call of [send] arms a timer and nothing is sent: whatever calls of
    [send], settlements and timer expiries follow, the requests stay as they
    were and the buffer holds every event appended since. *)
Theorem stale_timer_blocks_flush w h acts :
  reachable w -> shuttingDown w = false -> exited w = false ->
  isFlushing w = true -> h ∈ pending w ->
  Forall (fun a => is_signal a = false) acts ->
  let w1 := step (AFire h) w in
  let w2 := run acts w1 in
  (timer w1 = Some h /\ pending w1 = [] /\ posted w1 = posted w /\ buffer w1 = buffer w) /\
  timer w2 = Some h /\ pending w2 = [] /\
  posted w2 = posted w /\ buffer w2 = buffer w ++ appended acts.
Proof.
  intros Hr Hsd Hex Hfl Hin Hall w1 w2.
  pose proof (world_reachable_inv w Hr) as Hi.
  pose proof (inv_armed w Hi h Hin) as Ht.
  assert (Hep : exitPending w = false).
  { destruct (exitPending w) eqn:Hep; [|done].
    destruct (inv_exit w Hi Hep). congruence. }
  assert (Hw1 : w1 = set_pending [] w).
  { unfold w1, step. rewrite Hex, decide_True by done.
    unfold fire, bind, modify. simpl. rewrite flush_skipped by done. simpl.
    f_equal. apply filter_ne_armed. intros h' Hh'.
    by rewrite <- (inv_armed w Hi h' Hh'). }
  assert (Hrun : forall acts w0,
    Forall (fun a => is_signal a = false) acts ->
    shuttingDown w0 = false -> exited w0 = false -> exitPending w0 = false ->
    timer w0 = Some h -> pending w0 = [] ->
    timer (run acts w0) = Some h /\ pending (run acts w0) = [] /\
    posted (run acts w0) = posted w0 /\
    buffer (run acts w0) = buffer w0 ++ appended acts).
  { clear. induction acts as [|a acts IH]; intros w0 Hall Hsd Hex Hep Ht Hp.
    - simpl. by rewrite app_nil_r.
    - apply Forall_cons in Hall as [Ha Hall]. simpl. fold (run acts (step a w0)).
      assert (Hstep : shuttingDown (step a w0) = false /\ exited (step a w0) = false /\
                      exitPending (step a w0) = false /\ timer (step a w0) = Some h /\
                      pending (step a w0) = [] /\ posted (step a w0) = posted w0 /\
                      buffer (step a w0) = buffer w0 ++ appended [a]).
      { unfold step. rewrite Hex.
        destruct a as [p now|h'|o|sig]; try discriminate Ha; simpl.
        - by rewrite (send_coalesces w0 p now h).
        - rewrite Hp, app_nil_r. by rewrite decide_False by apply not_elem_of_nil.
        - rewrite app_nil_r. destruct (isFlushing w0); [|done].
          rewrite flush_resume_eq. simpl. by rewrite Hep. }
      destruct Hstep as (Hsd' & Hex' & Hep' & Ht' & Hp' & Hpo' & Hb').
      destruct (IH (step a w0) Hall Hsd' Hex' Hep' Ht' Hp') as (? & ? & Hpo & Hb).
      rewrite Hpo, Hb, Hpo', Hb', <- app_assoc. repeat split; try done.
      f_equal. by destruct a. }
  split; [by rewrite Hw1|].
  unfold w2. rewrite Hw1.
  by destruct (Hrun acts (set_pending [] w) Hall Hsd Hex Hep Ht eq_refl)
    as (? & ? & ? & ?).
Qed.

(** **** Termination *)

(** X6.  The first termination signal on a running transport ends the
    process: at once when a flush is executing or the buffer is empty;
    otherwise the buffer is sent as one batch and the process exits as soon
    as that request settles, fulfilled or rejected. *)
Theorem shutdown_exits w sig :
  shuttingDown w = false -> exited w = false ->
  let w1 := step (ASignal sig) w in
  (isFlushing w = true \/ buffer w = [] -> exited w1 = true) /\
  (isFlushing w = false -> buffer w ≠ [] ->
   exited w1 = false /\ buffer w1 = [] /\
   forall o, exited (step (ASettle o) w1) = true /\
             posted (step (ASettle o) w1) = posted w ++ [buffer w]).
Proof.
  intros Hsd Hex w1. unfold w1, step. rewrite Hex, shutdown_acts by done.
  destruct (flush_begin_cases (set_shuttingDown true w))
    as [[Hfl ->]|[(Hfl & Hb & ->)|(Hfl & Hb & ->)]]; simpl in *.
  - split; [done|]. intros ?; congruence.
  - split; [done|]. intros ? ?; congruence.
  - split; [intros [?|?]; congruence|]. intros _ _. rewrite Hex.
    repeat split; try done; by rewrite flush_resume_eq.
Qed.

End TransportMore.

Section TransportMoreExamples.
Import Transport.

Lemma request_drains_buffer_witness :
  let w := run [ASend 1%nat 0; ASend 2%nat 5] (@init nat) in
  posted (step (AFire 0%nat) w) = [[mkEvent 1%nat 0; mkEvent 2%nat 5]].
Proof.
  intros w.
  assert (Hne : posted (step (AFire 0%nat) w) ≠ posted w) by discriminate.
  destruct (request_drains_buffer (AFire 0%nat) w Hne) as (_ & _ & Hposted & _).
  exact Hposted.
Defined.

Lemma stale_timer_blocks_flush_witness :
  let w := run [ASend 1%nat 0; AFire 0%nat; ASend 2%nat 2100] (@init nat) in
  let acts := [ASettle (Normal tt); ASend 3%nat 5000; AFire 1%nat; AFire 2%nat] in
  posted (run acts (step (AFire 1%nat) w)) = [[mkEvent 1%nat 0]] /\
  buffer (run acts (step (AFire 1%nat) w)) = [mkEvent 2%nat 2100; mkEvent 3%nat 5000].
Proof.
  intros w acts.
  assert (Hr : reachable w) by (do 3 apply reach_step; apply reach_init).
  assert (Hin : 1%nat ∈ pending w) by (vm_compute; apply list_elem_of_here).
  assert (Hall : Forall (fun a => is_signal a = false) acts) by repeat constructor.
  destruct (stale_timer_blocks_flush w 1%nat acts Hr eq_refl eq_refl eq_refl Hin Hall)
    as (_ & _ & _ & Hposted & Hbuffer).
  split; [exact Hposted | exact Hbuffer].
Defined.

Lemma shutdown_exits_witness :
  let w := run [ASend 1%nat 0] (@init nat) in
  exited (step (ASettle (Throw (Exn "TypeError" "fetch failed"))) (step (ASignal SIGTERM) w))
  = true.
Proof.
  intros w.
  destruct (shutdown_exits w SIGTERM eq_refl eq_refl) as (_ & Hsent).
  assert (Hb : buffer w ≠ []) by discriminate.
  destruct (Hsent eq_refl Hb) as (_ & _ & Hsettle).
  destruct (Hsettle (Throw (Exn "TypeError" "fetch failed"))) as (Hexit & _).
  exact Hexit.
Defined.

End TransportMoreExamples.

(** *** The logger *)

Section CreateLoggerFacts.
Import CreateLogger.
Variable config : LoggerConfig.
Variable NODE_ENV : value.

Abbreviation finalPayload := (CreateLogger.finalPayload config NODE_ENV).
Abbreviation send := (CreateLogger.send config NODE_ENV).
Abbreviation createTypeMethod := (CreateLogger.createTypeMethod config NODE_ENV).

Lemma or_else_truthy (a b : value) : truthy b = true -> truthy (or_else a b) = true.
Proof. unfold or_else. by destruct (truthy a) eqn:Ha. Qed.

Lemma lookup_set_field (k : string) (v : value) (fs : list (string * value)) :
  lookup k (set_field k v fs) = v.
Proof.
  induction fs as [|[k' v'] fs IH]; simpl.
  - by rewrite String.eqb_refl.
  - destruct (String.eqb k' k) eqn:Hk; simpl.
    + by rewrite String.eqb_refl.
    + by rewrite Hk.
Qed.

Lemma lookup_set_field_ne (k k' : string) (v : value) (fs : list (string * value)) :
  k ≠ k' -> lookup k' (set_field k v fs) = lookup k' fs.
Proof.
  intros Hne. induction fs as [|[k0 v0] fs IH]; simpl.
  - apply String.eqb_neq in Hne. by rewrite Hne.
  - destruct (String.eqb k0 k) eqn:Hk; simpl.
    + apply String.eqb_eq in Hk as ->. apply String.eqb_neq in Hne. by rewrite Hne.
    + by rewrite IH.
Qed.

Lemma logger_send_enqueues payload now (w : Transport.world LogPayload) :
  nullish payload = false -> Transport.shuttingDown w = false ->
  exists w',
    send payload now w = (Normal tt, w') /\
    Transport.buffer w' =
      Transport.buffer w ++ [Transport.mkEvent (finalPayload payload) now].
Proof.
  intros Hn Hsd. unfold CreateLogger.send. rewrite Hn.
  destruct (Transport.timer w) as [h|] eqn:Ht.
  - rewrite (send_coalesces w _ now h) by done. by eexists.
  - rewrite send_arms by done. by eexists.
Qed.

(** X7.  The payload [send] of the logger hands to the transport has exactly
    the twelve keys of the object literal, in that order; its [appName] and
    [environment] are truthy whatever the caller and the configuration give;
    its [type] is "info" exactly when the caller gave none or gave "info".
    On a transport that is not shutting down the call completes and appends
    one event carrying that payload; on [undefined] or [null] it throws a
    [TypeError] and leaves the transport as it was. *)
Theorem logger_payload_shape :
  (forall payload,
     map fst (finalPayload payload) = payload_keys /\
     truthy (lookup "appName" (finalPayload payload)) = true /\
     truthy (lookup "environment" (finalPayload payload)) = true /\
     (lookup "type" (finalPayload payload) = VStr "info" <->
      prop payload "type" = VUndefined \/ prop payload "type" = VStr "info")) /\
  (forall payload now w,
     nullish payload = false -> Transport.shuttingDown w = false ->
     exists w',
       send payload now w = (Normal tt, w') /\
       Transport.buffer w' =
         Transport.buffer w ++ [Transport.mkEvent (finalPayload payload) now]) /\
  (forall payload now w,
     nullish payload = true ->
     exists e, send payload now w = (Throw e, w) /\ exn_name e = "TypeError").
Proof.
  split; [|split].
  - intros payload. split; [done|]. split; [|split].
    + simpl. by apply or_else_truthy.
    + simpl. by apply or_else_truthy.
    + simpl. unfold default_to. destruct (prop payload "type"); split; intros H;
        first [done | by left | by right | by destruct H].
  - apply logger_send_enqueues.
  - intros payload now w Hn. unfold CreateLogger.send. rewrite Hn. by eexists.
Qed.

(** X8.  A typed helper ([info], [error], ...) never throws, also when
    called without a payload.  On a transport that is not shutting down it
    appends one event whose [type] is the helper's, whatever [type] the
    caller's payload had, with the twelve keys of [send].  Of an object
    payload, the nine fields from [message] to [timestamps] pass through as
    they are; [appName] and [environment] pass through when truthy, and are
    otherwise taken from the configuration, from [NODE_ENV] (for the
    environment), or set to "default" and "development". *)
Theorem typed_helper_sets_type (type : string) (payload : value) (now : Z)
    (w : Transport.world LogPayload) :
  (createTypeMethod type payload now w).1 = Normal tt /\
  (Transport.shuttingDown w = false ->
   exists p w',
     createTypeMethod type payload now w = (Normal tt, w') /\
     Transport.buffer w' = Transport.buffer w ++ [Transport.mkEvent p now] /\
     lookup "type" p = VStr type /\
     map fst p = payload_keys /\
     (forall fs, payload = VObj fs ->
        (forall k, k ∈ copied_keys -> lookup k p = lookup k fs) /\
        lookup "appName" p =
          or_else (or_else (lookup "appName" fs) (appName config)) (VStr "default") /\
        lookup "environment" p =
          or_else (or_else (or_else (lookup "environment" fs) (environment config))
                           NODE_ENV) (VStr "development"))).
Proof.
  unfold CreateLogger.createTypeMethod.
  assert (Hacts : Transport.shuttingDown w = false ->
    exists p w',
      send (VObj (set_field "type" (VStr type) (spread payload))) now w = (Normal tt, w') /\
      Transport.buffer w' = Transport.buffer w ++ [Transport.mkEvent p now] /\
      lookup "type" p = VStr type /\
      map fst p = payload_keys /\
      (forall fs, payload = VObj fs ->
         (forall k, k ∈ copied_keys -> lookup k p = lookup k fs) /\
         lookup "appName" p =
           or_else (or_else (lookup "appName" fs) (appName config)) (VStr "default") /\
         lookup "environment" p =
           or_else (or_else (or_else (lookup "environment" fs) (environment config))
                            NODE_ENV) (VStr "development"))).
  { intros Hsd.
    destruct (logger_send_enqueues
                (VObj (set_field "type" (VStr type) (spread payload))) now w eq_refl Hsd)
      as (w' & Hrun & Hbuf).
    eexists _, w'. split; [exact Hrun|]. split; [exact Hbuf|]. split; [|split; [done|]].
    - simpl. by rewrite lookup_set_field.
    - intros fs ->. simpl. split; [|split].
      + intros k Hk. unfold copied_keys in Hk.
        repeat (apply elem_of_cons in Hk as [->|Hk];
                [simpl; by apply lookup_set_field_ne|]).
        by apply elem_of_nil in Hk.
      + by rewrite (lookup_set_field_ne "type" "appName").
      + by rewrite (lookup_set_field_ne "type" "environment"). }
  split; [|exact Hacts].
  destruct (Transport.shuttingDown w) eqn:Hsd.
  - unfold CreateLogger.send. simpl. by rewrite send_ignored.
  - destruct (Hacts eq_refl) as (p & w' & -> & _). done.
Qed.

End CreateLoggerFacts.

Section CreateLoggerExamples.
Import CreateLogger.

Lemma logger_payload_shape_witness :
  let config := mkConfig "key" (VStr "api") VUndefined in
  let payload := VObj [("message", VStr "User fetched")] in
  exists w',
    CreateLogger.send config VUndefined payload 5 Transport.init = (Normal tt, w') /\
    Transport.buffer w' =
      [Transport.mkEvent
         [("type", VStr "info"); ("message", VStr "User fetched");
          ("importance", VUndefined); ("subsystem", VUndefined);
          ("operation", VUndefined); ("service", VUndefined); ("track", VUndefined);
          ("security", VUndefined); ("metrics", VUndefined); ("timestamps", VUndefined);
          ("appName", VStr "api"); ("environment", VStr "development")] 5].
Proof.
  intros config payload.
  destruct (logger_payload_shape config VUndefined) as (_ & Hsend & _).
  exact (Hsend payload 5 Transport.init eq_refl eq_refl).
Defined.

Lemma typed_helper_sets_type_witness :
  let config := mkConfig "key" (VStr "api") VUndefined in
  let payload := VObj [("type", VStr "info"); ("message", VStr "m"); ("appName", VStr "")] in
  exists p w',
    CreateLogger.createTypeMethod config VUndefined "error" payload 5 Transport.init
      = (Normal tt, w') /\
    Transport.buffer w' = [Transport.mkEvent p 5] /\
    lookup "type" p = VStr "error" /\
    lookup "message" p = VStr "m" /\
    lookup "appName" p = VStr "api".
Proof.
  intros config payload.
  destruct (typed_helper_sets_type config VUndefined "error" payload 5 Transport.init)
    as [_ Hacts].
  destruct (Hacts eq_refl) as (p & w' & Hrun & Hbuf & Hty & _ & Hfields).
  destruct (Hfields _ eq_refl) as (Hcopied & Happ & _).
  exists p, w'. split; [exact Hrun|]. split; [exact Hbuf|]. split; [exact Hty|].
  split; [|exact Happ].
  apply (Hcopied "message"). apply list_elem_of_here.
Defined.

End CreateLoggerExamples.

(** *** Query strings *)

Section UrlFacts.
Import Url.

Lemma append_cons (c : ascii) (a b : string) : String c a +:+ b = String c (a +:+ b).
Proof. reflexivity. Qed.

Lemma append_assoc (a b c : string) : (a +:+ b) +:+ c = a +:+ (b +:+ c).
Proof. induction a as [|x a IH]; [done|]. by rewrite !append_cons, IH. Qed.

Lemma free_of_append (c : ascii) (a b : string) :
  free_of c (a +:+ b) = free_of c a && free_of c b.
Proof.
  induction a as [|x a IH]; [done|].
  rewrite append_cons. simpl. by rewrite IH, andb_assoc.
Qed.

Lemma urldecode_byte (c : ascii) (s : string) :
  urldecode (encode_byte c +:+ s) = String c (urldecode s).
Proof. destruct c as [[] [] [] [] [] [] [] []]; reflexivity. Qed.

Lemma encode_byte_free (c : ascii) :
  free_of "=" (encode_byte c) = true /\ free_of "&" (encode_byte c) = true.
Proof. destruct c as [[] [] [] [] [] [] [] []]; split; reflexivity. Qed.

Lemma urldecode_urlencode (s : string) : urldecode (urlencode s) = s.
Proof.
  induction s as [|c s IH]; [done|].
  simpl. by rewrite urldecode_byte, IH.
Qed.

Lemma urlencode_inj (s t : string) : urlencode s = urlencode t -> s = t.
Proof.
  intros H. by rewrite <- (urldecode_urlencode s), H, urldecode_urlencode.
Qed.

Lemma urlencode_free (s : string) :
  free_of "=" (urlencode s) = true /\ free_of "&" (urlencode s) = true.
Proof.
  induction s as [|c s [IH1 IH2]]; [done|].
  simpl. rewrite !free_of_append, IH1, IH2.
  by destruct (encode_byte_free c) as [-> ->].
Qed.

(** Two strings cut at the first occurrence of [c] are equal only when both
    parts are. *)
Lemma cut_unique (c : ascii) (a a' r r' : string) :
  free_of c a = true -> free_of c a' = true ->
  a +:+ String c r = a' +:+ String c r' -> a = a' /\ r = r'.
Proof.
  revert a'. induction a as [|x a IH]; intros [|x' a'] Ha Ha' Heq.
  - injection Heq as ->. done.
  - rewrite append_cons in Heq. injection Heq as <- _. simpl in Ha'.
    by rewrite Ascii.eqb_refl in Ha'.
  - rewrite append_cons in Heq. injection Heq as -> _. simpl in Ha.
    by rewrite Ascii.eqb_refl in Ha.
  - rewrite !append_cons in Heq. injection Heq as -> Heq.
    simpl in Ha, Ha'. apply andb_prop in Ha as [_ Ha]. apply andb_prop in Ha' as [_ Ha'].
    by destruct (IH a' Ha Ha' Heq) as [-> ->].
Qed.

Lemma free_of_not_cut (c : ascii) (a a' r : string) :
  free_of c a = true -> a <> a' +:+ String c r.
Proof.
  intros Ha ->. rewrite free_of_append in Ha. simpl in Ha.
  rewrite Ascii.eqb_refl, andb_false_r in Ha. done.
Qed.

Lemma append_nil_r (a : string) : a +:+ EmptyString = a.
Proof. induction a as [|x a IH]; [done|]. by rewrite append_cons, IH. Qed.

Lemma serialize_inj (ps : list (string * string)) : forall qs,
  serialize ps = serialize qs -> ps = qs.
Proof.
  induction ps as [|[k v] ps IH]; intros [|[k' v'] qs] Heq; [done| | |].
  - exfalso. simpl in Heq.
    revert Heq. apply (free_of_not_cut "=" _ (urlencode k')); done.
  - exfalso. simpl in Heq. symmetry in Heq.
    revert Heq. apply (free_of_not_cut "=" _ (urlencode k)); done.
  - simpl in Heq.
    destruct (urlencode_free k) as [Hk _], (urlencode_free k') as [Hk' _].
    destruct (urlencode_free v) as [_ Hv], (urlencode_free v') as [_ Hv'].
    apply (cut_unique "=" _ _ _ _ Hk Hk') in Heq as [Hkk Heq].
    apply urlencode_inj in Hkk as ->.
    destruct ps as [|p ps], qs as [|q qs].
    + rewrite !append_nil_r in Heq. by apply urlencode_inj in Heq as ->.
    + exfalso. rewrite append_nil_r in Heq. revert Heq. by apply free_of_not_cut.
    + exfalso. rewrite append_nil_r in Heq. symmetry in Heq. revert Heq.
      by apply free_of_not_cut.
    + apply (cut_unique "&" _ _ _ _ Hv Hv') in Heq as [Hvv Heq].
      apply urlencode_inj in Hvv as ->. by rewrite (IH _ Heq).
Qed.

Lemma serialize_nil (ps : list (string * string)) : serialize ps = EmptyString -> ps = [].
Proof. intros H. by apply serialize_inj. Qed.

Lemma kept_obj (fs : list (string * value)) :
  kept (VObj fs) = omap (fun kv => if is_set kv.2 then Some (kv.1, toString kv.2) else None) fs.
Proof. done. Qed.

Lemma kept_all_set (fs : list (string * value)) :
  Forall (fun kv => is_set kv.2 = true) fs -> kept (VObj fs) = all_pairs fs.
Proof.
  rewrite kept_obj. induction fs as [|[k v] fs IH]; intros Hall; [done|].
  apply Forall_cons in Hall as [Hv Hall]. simpl in *. rewrite Hv. simpl.
  f_equal. by apply IH.
Qed.

Lemma defined_all_set (fs : list (string * value)) :
  Forall (fun kv => is_set kv.2 = true /\ kv.1 ≠ "__proto__") fs ->
  defined_pairs (VObj fs) = all_pairs fs.
Proof.
  unfold defined_pairs, entries. simpl.
  induction fs as [|[k v] fs IH]; intros Hall; [done|].
  apply Forall_cons in Hall as [[Hv Hk] Hall]. simpl in *.
  apply String.eqb_neq in Hk. rewrite Hk.
  destruct v; try discriminate Hv; simpl; f_equal; by apply IH.
Qed.

Lemma kept_none (fs : list (string * value)) :
  Forall (fun kv => is_set kv.2 = false) fs -> kept (VObj fs) = [].
Proof.
  rewrite kept_obj. induction fs as [|[k v] fs IH]; intros Hall; [done|].
  apply Forall_cons in Hall as [Hv Hall]. simpl in *. rewrite Hv. by apply IH.
Qed.

(** X9.  Two filter objects get the same cache key exactly when [buildKey]
    keeps the same name-value pairs from them, in the same order: the
    encoding loses nothing.  The key depends on the order of the properties:
    two set filters enumerated in the other order give another key. *)
Theorem buildKey_injective :
  (forall p q, buildKey p = buildKey q <-> kept p = kept q) /\
  (forall k1 v1 k2 v2,
     k1 ≠ k2 -> is_set v1 = true -> is_set v2 = true ->
     buildKey (VObj [(k1, v1); (k2, v2)]) ≠ buildKey (VObj [(k2, v2); (k1, v1)])).
Proof.
  split.
  - intros p q. split; [apply serialize_inj|]. unfold buildKey. by intros ->.
  - intros k1 v1 k2 v2 Hne H1 H2 Heq. apply serialize_inj in Heq.
    rewrite !kept_obj in Heq. simpl in Heq. rewrite H1, H2 in Heq. simpl in Heq.
    by injection Heq.
Qed.

(** X10.  A filter that is [undefined], [null] or empty as a string does not
    show in the key: the key is that of the object without it, and a filter
    object holding only such a filter gives the URL without a query. *)
Theorem buildKey_skips_unset (fs1 fs2 : list (string * value)) (k : string) (v : value) :
  is_set v = false ->
  buildKey (VObj (fs1 ++ (k, v) :: fs2)) = buildKey (VObj (fs1 ++ fs2)) /\
  GetLogs.url (buildKey (VObj [(k, v)])) = "/api/oneminutelogs/logs".
Proof.
  intros Hv. unfold buildKey. rewrite !kept_obj, !omap_app. simpl. by rewrite Hv.
Qed.

(** X11.  The request URL of [getLogs] is the bare path exactly when
    [buildKey] keeps no filter. *)
Theorem plain_url_iff_unfiltered (params : value) :
  GetLogs.url (buildKey params) = "/api/oneminutelogs/logs" <-> kept params = [].
Proof.
  unfold GetLogs.url, buildKey. split.
  - destruct (String.eqb (serialize (kept params)) "") eqn:He.
    + intros _. apply String.eqb_eq in He. by apply serialize_nil.
    + intros H. exfalso.
      assert (Hcut : forall a : string,
                "/api/oneminutelogs/logs" +:+ a = "/api/oneminutelogs/logs" -> a = "").
      { intros a Ha. unfold String.app in Ha. by injection Ha. }
      by apply Hcut in H.
  - by intros ->.
Qed.

(** X12.  On a non-empty filter object whose values are all set (and that has
    no own [__proto__] property), [OMLTransport.get], [OMLTransport.stream]
    and the [getStream] effect build the same query: [?] followed by the key
    of [buildKey].  On a non-empty object whose values are all [undefined]
    they differ: [buildKey] gives the empty key, the [getStream] effect a
    lone [?], and [OMLTransport.get] sends every filter as the text
    "undefined". *)
Theorem query_strings_compared (fs : list (string * value)) :
  fs ≠ [] ->
  (Forall (fun kv => is_set kv.2 = true /\ kv.1 ≠ "__proto__") fs ->
   get_qs (VObj fs) = Some ("?" +:+ buildKey (VObj fs)) /\
   transport_stream_qs (VObj fs) = Some ("?" +:+ buildKey (VObj fs)) /\
   stream_qs (VObj fs) = "?" +:+ buildKey (VObj fs)) /\
  (Forall (fun kv => kv.2 = VUndefined) fs ->
   buildKey (VObj fs) = "" /\
   stream_qs (VObj fs) = "?" /\
   get_qs (VObj fs) = Some ("?" +:+ serialize (map (fun kv => (kv.1, "undefined")) fs))).
Proof.
  intros Hne.
  assert (Hlen : Nat.eqb (length fs) 0 = false) by (by destruct fs).
  unfold get_qs, stream_qs, transport_stream_qs, entries. simpl. rewrite Hlen. simpl.
  split.
  - intros Hall. unfold buildKey.
    rewrite (defined_all_set fs Hall), kept_all_set; [done|].
    eapply Forall_impl; [exact Hall|]. by intros kv [? _].
  - intros Hall. split; [|split].
    + unfold buildKey. rewrite kept_none; [done|].
      eapply Forall_impl; [exact Hall|]. simpl. by intros [k v] ->.
    + unfold defined_pairs, entries. simpl.
      replace (omap _ fs) with (@nil (string * string)); [done|].
      clear Hne Hlen. induction fs as [|[k v] fs IH]; [done|].
      apply Forall_cons in Hall as [Hv Hall]. simpl in *. rewrite Hv. by apply IH.
    + do 3 f_equal. unfold all_pairs. apply map_ext_Forall.
      eapply Forall_impl; [exact Hall|]. simpl. by intros [k v] ->.
Qed.

End UrlFacts.

Section UrlExamples.
Import Url.

Lemma buildKey_injective_witness :
  buildKey (VObj [("type", VStr "error"); ("limit", VNum 100)])
  ≠ buildKey (VObj [("limit", VNum 100); ("type", VStr "error")]).
Proof.
  destruct buildKey_injective as [_ Horder]. by apply Horder.
Defined.

Lemma buildKey_skips_unset_witness :
  buildKey (VObj [("type", VStr "error"); ("search", VStr ""); ("limit", VNum 100)])
  = buildKey (VObj [("type", VStr "error"); ("limit", VNum 100)]).
Proof.
  by destruct (buildKey_skips_unset [("type", VStr "error")] [("limit", VNum 100)]
                 "search" (VStr "") eq_refl) as [Heq _].
Defined.

Lemma query_strings_compared_witness :
  let fs := [("type", VStr "error"); ("search", VStr "a b"); ("limit", VNum 100)] in
  stream_qs (VObj fs) = "?" +:+ buildKey (VObj fs) /\
  buildKey (VObj fs) = "type=error&search=a+b&limit=100".
Proof.
  intros fs.
  assert (Hne : fs ≠ []) by discriminate.
  assert (Hall : Forall (fun kv => is_set kv.2 = true /\ kv.1 ≠ "__proto__") fs)
    by (repeat constructor; discriminate).
  destruct (query_strings_compared fs Hne) as [Hagree _].
  destruct (Hagree Hall) as (_ & _ & Hs). split; [exact Hs | reflexivity].
Defined.

End UrlExamples.

(** *** The query cache, continued *)

Section GetLogsMore.
Import GetLogs.
Implicit Types (s : store) (k : string) (c : caller) (p : promise).

Lemma awaited_elem p k ws : awaited p k ws = true <-> exists c, (p, (c, k)) ∈ ws.
Proof.
  unfold awaited. rewrite existsb_exists. split.
  - intros ([p' [c k']] & Hin & Hb). simpl in Hb.
    apply andb_prop in Hb as [Hp Hk].
    apply Nat.eqb_eq in Hp as ->. apply String.eqb_eq in Hk as ->.
    exists c. by apply list_elem_of_In.
  - intros [c Hin]. exists (p, (c, k)). split; [by apply list_elem_of_In|].
    simpl. by rewrite Nat.eqb_refl, String.eqb_refl.
Qed.

Lemma awaited_app p k ws1 ws2 : awaited p k (ws1 ++ ws2) = awaited p k ws1 || awaited p k ws2.
Proof. apply existsb_app. Qed.

Lemma resume_all_frame p o ws : forall s,
  waiters (resume_all p o ws s) = waiters s /\
  requests (resume_all p o ws s) = requests s /\
  returned (resume_all p o ws s) =
    returned s ++ map (fun w => (w.2.1, o)) (filter (fun w => w.1 = p) ws).
Proof.
  induction ws as [|[p' [c k]] ws IH]; intros s; simpl.
  - by rewrite app_nil_r.
  - rewrite filter_cons. simpl. destruct (Nat.eqb p' p) eqn:Hp.
    + apply Nat.eqb_eq in Hp as ->. rewrite decide_True by done.
      rewrite fetchOnce_resume_eq.
      destruct (IH (add_returned c o
        (mkStore (match o with Normal v => <[k:=v]> (cache s) | Throw _ => cache s end)
                 (delete k (inflight s)) (requests s) (waiters s) (returned s))))
        as (-> & -> & ->).
      simpl. by rewrite <- app_assoc.
    + apply Nat.eqb_neq in Hp. rewrite decide_False by done. apply IH.
Qed.

Lemma resume_all_maps p o ws k : forall s,
  inflight (resume_all p o ws s) !! k =
    (if awaited p k ws then None else inflight s !! k) /\
  cache (resume_all p o ws s) !! k =
    (if awaited p k ws
     then match o with Normal v => Some v | Throw _ => cache s !! k end
     else cache s !! k).
Proof.
  induction ws as [|[p' [c k']] ws IH]; intros s; simpl; [done|].
  destruct (Nat.eqb p' p) eqn:Hp; simpl; [|apply IH].
  rewrite fetchOnce_resume_eq.
  match goal with |- context [resume_all p o ws ?s1] => destruct (IH s1) as [-> ->] end.
  simpl. destruct (String.eqb k' k) eqn:Hk; simpl.
  - apply String.eqb_eq in Hk as ->. rewrite lookup_delete_eq.
    destruct o; [rewrite lookup_insert_eq|]; by destruct (awaited p k ws).
  - apply String.eqb_neq in Hk. rewrite lookup_delete_ne by done.
    destruct o; [rewrite lookup_insert_ne by done|]; done.
Qed.

Lemma awaited_filter_ne p q k ws :
  q ≠ p -> awaited q k (filter (fun w => w.1 ≠ p) ws) = awaited q k ws.
Proof.
  intros Hne. apply eq_true_iff_eq. rewrite !awaited_elem.
  split; intros [c Hin]; exists c.
  - by apply list_elem_of_filter in Hin as [_ Hin].
  - apply list_elem_of_filter. by split.
Qed.

Lemma url_inj k1 k2 : url k1 = url k2 -> k1 = k2.
Proof.
  unfold url. intros H.
  assert (Hcut : forall a b : string,
            "/api/oneminutelogs/logs" +:+ a = "/api/oneminutelogs/logs" +:+ b -> a = b).
  { intros a b Hab. unfold String.app in Hab. by injection Hab. }
  apply Hcut in H. clear Hcut.
  destruct (String.eqb k1 "") eqn:H1, (String.eqb k2 "") eqn:H2.
  - apply String.eqb_eq in H1, H2. congruence.
  - destruct k2; done.
  - destruct k1; done.
  - by injection H.
Qed.

Lemma linked_empty : linked empty.
Proof.
  split; simpl.
  - intros p c k Hin. by apply elem_of_nil in Hin.
  - intros k p Hp. by rewrite lookup_empty in Hp.
  - intros k p Hp. by rewrite lookup_empty in Hp.
Qed.

Lemma linked_call c k s : inv s -> linked s -> linked (call c k s).
Proof.
  intros Hs [Hw Hr Ha]. unfold call.
  destruct (cache s !! k) as [v|] eqn:Hc.
  { rewrite (fetchOnce_hit s k v) by done. by split. }
  destruct (inflight s !! k) as [p|] eqn:Hp.
  { rewrite (fetchOnce_joins s k p) by done. split; simpl; try done.
    - intros p' c' k' Hin. apply elem_of_app in Hin as [Hin|Hin]; [by eapply Hw|].
      apply list_elem_of_singleton in Hin. by injection Hin as -> -> ->.
    - intros k' p' Hp'. rewrite awaited_app. by rewrite (Ha _ _ Hp'). }
  rewrite fetchOnce_requests by done. split; simpl.
  - intros p' c' k' Hin. apply elem_of_app in Hin as [Hin|Hin].
    + destruct (decide (k = k')) as [<-|Hne].
      * specialize (Hw _ _ _ Hin). congruence.
      * rewrite lookup_insert_ne by done. by eapply Hw.
    + apply list_elem_of_singleton in Hin. injection Hin as -> -> ->.
      by rewrite lookup_insert_eq.
  - intros k' p'. destruct (decide (k = k')) as [<-|Hne].
    + rewrite lookup_insert_eq. intros [= <-].
      by rewrite lookup_app_r, Nat.sub_diag.
    + rewrite lookup_insert_ne by done. intros Hp'.
      rewrite lookup_app_l; [by apply Hr|]. by eapply (inv_inflight s Hs).
  - intros k' p'. rewrite awaited_app. destruct (decide (k = k')) as [<-|Hne].
    + rewrite lookup_insert_eq. intros [= <-]. simpl.
      by rewrite Nat.eqb_refl, String.eqb_refl, orb_true_r.
    + rewrite lookup_insert_ne by done. intros Hp'. by rewrite (Ha _ _ Hp').
Qed.

Lemma linked_evict k s : linked s -> linked (set_cache (delete k (cache s)) s).
Proof. intros [Hw Hr Ha]. by split. Qed.

Lemma linked_settle p net s : linked s -> linked (settle p net s).
Proof.
  intros [Hw Hr Ha]. unfold settle.
  set (s0 := set_waiters (filter (fun w => w.1 ≠ p) (waiters s)) s).
  destruct (resume_all_frame p (settled net) (waiters s) s0) as (Hws & Hrq & _).
  split.
  - intros q c k Hin. rewrite Hws in Hin. simpl in Hin.
    apply list_elem_of_filter in Hin as [Hne Hin]. simpl in Hne.
    destruct (resume_all_maps p (settled net) (waiters s) k s0) as [-> _].
    destruct (awaited p k (waiters s)) eqn:Haw; [|by eapply Hw].
    apply awaited_elem in Haw as [c' Hin'].
    pose proof (Hw _ _ _ Hin). pose proof (Hw _ _ _ Hin'). congruence.
  - intros k q. rewrite Hrq.
    destruct (resume_all_maps p (settled net) (waiters s) k s0) as [-> _].
    destruct (awaited p k (waiters s)); [done|]. apply Hr.
  - intros k q. rewrite Hws. simpl.
    destruct (resume_all_maps p (settled net) (waiters s) k s0) as [-> _].
    destruct (awaited p k (waiters s)) eqn:Haw; [done|]. simpl. intros Hq.
    rewrite awaited_filter_ne; [by apply Ha|].
    intros ->. rewrite (Ha _ _ Hq) in Haw. done.
Qed.

Lemma linked_step a s : inv s -> linked s -> linked (step a s).
Proof.
  intros Hs Hl. destruct a as [c k|c k|p net]; simpl.
  - by apply linked_call.
  - unfold refetch. apply linked_call; [by apply store_inv_evict|by apply linked_evict].
  - by apply linked_settle.
Qed.

Lemma linked_reachable s : reachable s -> linked s.
Proof.
  induction 1 as [|a s Hr IH]; [apply linked_empty|].
  apply linked_step; [by apply store_reachable_inv|done].
Qed.

(** X13.  When a promise settles, every call of [fetchOnce] suspended on it
    ends, in the order in which the calls were made, and all end the same
    way; the other suspended calls stay suspended and no request is issued.
    For each key awaited on that promise the in-flight marker is removed and,
    when the request succeeded, the value is cached; the other keys keep
    their marker and their cache entry. *)
Theorem settle_delivers_all p (net : completion response) s :
  let s' := settle p net s in
  returned s' = returned s ++ map (fun c => (c, settled net)) (waiting_on p s) /\
  waiters s' = filter (fun w => w.1 ≠ p) (waiters s) /\
  requests s' = requests s /\
  forall k,
    inflight s' !! k = (if awaited p k (waiters s) then None else inflight s !! k) /\
    cache s' !! k =
      (if awaited p k (waiters s)
       then match settled net with Normal v => Some v | Throw _ => cache s !! k end
       else cache s !! k).
Proof.
  simpl. unfold settle, waiting_on.
  set (s0 := set_waiters (filter (fun w => w.1 ≠ p) (waiters s)) s).
  destruct (resume_all_frame p (settled net) (waiters s) s0) as (Hws & Hrq & Hrt).
  split; [by rewrite Hrt, map_map|]. split; [done|]. split; [done|].
  intros k. apply (resume_all_maps p (settled net) (waiters s) k s0).
Qed.

(** X14.  In every reachable store, a suspended call of [fetchOnce(k)] waits
    on the promise registered for [k], and a registered promise is that of a
    request for the URL of its key and has a call suspended on it.  So two
    calls that wait on the same promise asked for the same key, and once a
    promise has settled no key is registered with it. *)
Theorem waiters_linked s :
  reachable s ->
  linked s /\
  (forall c1 c2 k1 k2 p,
     (p, (c1, k1)) ∈ waiters s -> (p, (c2, k2)) ∈ waiters s -> k1 = k2) /\
  (forall p net k, inflight (settle p net s) !! k ≠ Some p).
Proof.
  intros Hr. pose proof (linked_reachable s Hr) as Hl. split; [done|]. split.
  - intros c1 c2 k1 k2 p H1 H2. apply url_inj.
    pose proof (linked_request s Hl _ _ (linked_waiter s Hl _ _ _ H1)).
    pose proof (linked_request s Hl _ _ (linked_waiter s Hl _ _ _ H2)). congruence.
  - intros p net k.
    destruct (resume_all_maps p (settled net) (waiters s) k
                (set_waiters (filter (fun w => w.1 ≠ p) (waiters s)) s)) as [Hi _].
    unfold settle. rewrite Hi.
    destruct (awaited p k (waiters s)) eqn:Haw; [done|]. simpl. intros Hp.
    by rewrite (linked_awaited s Hl _ _ Hp) in Haw.
Qed.

(** X15.  One run of [fetchLogs] never throws and always ends with
    [isLoading] false.  On success [data] is the rows and [error] is null; on
    an [AbortError] [data] keeps the value it had and [error] is null; on any
    other failure [data] becomes null and [error] is the exception. *)
Theorem fetchLogs_settles (o : completion value) (h : hook) :
  let h' := (fetchLogs o h).2 in
  (fetchLogs o h).1 = Normal tt /\ isLoading h' = false /\
  match o with
  | Normal b => data h' = coalesce (rows_of b) (VArr []) /\ error h' = None
  | Throw e =>
      if String.eqb (exn_name e) "AbortError"
      then data h' = data h /\ error h' = None
      else data h' = VNull /\ error h' = Some e
  end.
Proof.
  destruct o as [b|e]; simpl; [done|].
  unfold fetchLogs, fetchLogs_begin, fetchLogs_resume, tryFinally, tryCatch, bind, await.
  simpl. by destruct (String.eqb (exn_name e) "AbortError").
Qed.

End GetLogsMore.

Section GetLogsMoreExamples.
Import GetLogs.

Lemma waiters_linked_witness :
  let s := step (ACall 2%nat "type=info")
             (step (ACall 1%nat "type=error") (step (ACall 0%nat "type=error") empty)) in
  requests s !! 0%nat = Some (url "type=error") /\
  inflight (settle 0%nat (Throw (Exn "TypeError" "fetch failed")) s) !! "type=error"
    ≠ Some 0%nat.
Proof.
  intros s.
  assert (Hr : reachable s) by (do 3 apply reach_step; apply reach_empty).
  destruct (waiters_linked s Hr) as (Hl & _ & Hgone).
  split; [|apply Hgone].
  apply (linked_request s Hl "type=error" 0%nat). reflexivity.
Defined.

End GetLogsMoreExamples.

(** *** The live stream, continued *)

Section GetStreamMore.
Import GetStream.
Variable randomUUID : nat -> string.
Variable Date_parse : string -> option Z.

Abbreviation toLogEntry := (GetStream.toLogEntry randomUUID Date_parse).
Abbreviation incoming_of := (GetStream.incoming_of randomUUID Date_parse).
Abbreviation onmessage := (GetStream.onmessage randomUUID Date_parse).
Abbreviation receive := (GetStream.receive randomUUID Date_parse).
Abbreviation entries := (GetStream.entries randomUUID).
Abbreviation drawn := (GetStream.drawn randomUUID).
Abbreviation es_onmessage := (GetStream.es_onmessage randomUUID Date_parse).
Abbreviation updater := (GetStream.updater randomUUID Date_parse).
Abbreviation deliver := (GetStream.deliver randomUUID Date_parse).
Abbreviation stream := (GetStream.stream randomUUID Date_parse).
Implicit Types (h : hook) (l r : value).

Lemma level_of_levels (x : string) : level_of x ∈ levels.
Proof.
  unfold level_of, levels.
  repeat (case_match; [repeat (first [apply list_elem_of_here | apply list_elem_of_further])|]).
  apply list_elem_of_here.
Qed.

Lemma toISOString_cases {S} (m : option Z) (s : S) :
  (exists ms, m = Some ms /\ in_range ms = true /\
              toISOString m s = (Normal (iso_of ms), s)) \/
  (toISOString m s = (Throw (Exn "RangeError" "Invalid time value"), s) /\
   forall ms, m = Some ms -> in_range ms = false).
Proof.
  destruct m as [t|]; [|by right].
  destruct (in_range t) eqn:Hr.
  - left. exists t. split; [done|]. split; [done|].
    unfold iso_of, toISOString. unfold in_range in Hr. rewrite Hr.
    by destruct (civil_from_days _) as [[y m] d].
  - right. unfold toISOString. unfold in_range in Hr. rewrite Hr. split; [done|].
    by intros ms [= <-].
Qed.

(** What [toLogEntry] hands to [toISOString]. *)
Lemma toLogEntry_cases l h :
  let stamp := prop l "timestamp" in
  let m := match stamp with
           | VNum n => Some (n * 1000)
           | _ => Date_parse (parsed_text stamp)
           end in
  toLogEntry l h =
    if nullish l
    then (Throw (Exn "TypeError"
                   ("Cannot read properties of null or undefined, reading " +:+ "type")), h)
    else match or_else (prop l "type") (VStr "info") with
         | VStr s =>
             match toISOString m h with
             | (Normal iso, _) =>
                 (Normal (mkEntry (randomUUID (uuids h)) iso (level_of (toLowerCase s))
                            (or_else (prop l "appName") (VStr "default"))
                            (prop l "message") (spread l)), bump h)
             | (Throw e, _) => (Throw e, h)
             end
         | _ => (Throw (Exn "TypeError" "toLowerCase is not a function"), h)
         end.
Proof.
  simpl. unfold GetStream.toLogEntry, get, bind, ret, throw, crypto_randomUUID, parsed_text.
  destruct (nullish l) eqn:Hn; [done|].
  destruct (or_else (prop l "type") (VStr "info")); try done.
  destruct (prop l "timestamp");
    match goal with
    | |- context [toISOString ?m h] =>
        destruct (toISOString_cases m h) as [(ms & _ & _ & ->)|[-> _]]
    end; simpl; by rewrite ?Hn.
Qed.

Lemma toLogEntry_returns l h e h' :
  toLogEntry l h = (Normal e, h') ->
  h' = bump h /\ id e = randomUUID (uuids h) /\ level e ∈ levels /\
  truthy (source e) = true /\ message e = prop l "message" /\ payload e = spread l /\
  (exists ms, in_range ms = true /\ ts e = iso_of ms) /\
  nullish l = false.
Proof.
  rewrite toLogEntry_cases. simpl.
  destruct (nullish l); [discriminate|].
  destruct (or_else (prop l "type") (VStr "info")); try discriminate.
  match goal with
  | |- context [toISOString ?m h] =>
      destruct (toISOString_cases m h) as [(ms & _ & Hr & ->)|[-> _]]
  end; [|discriminate].
  intros [= <- <-]. simpl. split; [done|]. split; [done|].
  split; [apply level_of_levels|]. split.
  { unfold or_else. by destruct (truthy (prop l "appName")) eqn:Ha. }
  split; [done|]. split; [done|]. split; [by exists ms|done].
Qed.

Lemma toLogEntry_throws l h e h' : toLogEntry l h = (Throw e, h') -> h' = h.
Proof.
  rewrite toLogEntry_cases. simpl.
  destruct (nullish l); [by intros [= _ <-]|].
  destruct (or_else (prop l "type") (VStr "info")); try by intros [= _ <-].
  match goal with
  | |- context [toISOString ?m h] =>
      destruct (toISOString_cases m h) as [(ms & _ & Hr & ->)|[-> _]]
  end; [discriminate|by intros [= _ <-]].
Qed.

Lemma mapM_returns rs : forall h es h',
  mapM toLogEntry rs h = (Normal es, h') ->
  map id es = map randomUUID (seq (uuids h) (length rs)) /\
  uuids h' = (uuids h + length rs)%nat.
Proof.
  induction rs as [|r rs IH]; intros h es h'; simpl.
  - intros [= <- <-]. split; [done|lia].
  - unfold bind. destruct (toLogEntry r h) as [[e|x] h1] eqn:He; [|discriminate].
    apply toLogEntry_returns in He as (-> & Hid & _).
    destruct (mapM toLogEntry rs (bump h)) as [[es'|x] h2] eqn:Hes; [|discriminate].
    apply IH in Hes as [Hids Hu]. intros [= <- <-]. simpl in *.
    rewrite Hid, Hids. split; [done|lia].
Qed.

Lemma mapM_uuids rs : forall h, (uuids h <= uuids (mapM toLogEntry rs h).2)%nat.
Proof.
  induction rs as [|r rs IH]; intros h; simpl; [done|].
  unfold bind. destruct (toLogEntry r h) as [[e|x] h1] eqn:He.
  - apply toLogEntry_returns in He as (-> & _).
    specialize (IH (bump h)).
    destruct (mapM toLogEntry rs (bump h)) as [[es'|x] h2]; simpl in *; lia.
  - apply toLogEntry_throws in He as ->. done.
Qed.

Lemma incoming_returns payload h inc h' :
  incoming_of payload h = (Normal inc, h') ->
  map id inc = map randomUUID (seq (uuids h) (length inc)) /\
  uuids h' = (uuids h + length inc)%nat.
Proof.
  assert (Hmap : forall rs, mapM toLogEntry rs h = (Normal inc, h') ->
    map id inc = map randomUUID (seq (uuids h) (length inc)) /\
    uuids h' = (uuids h + length inc)%nat).
  { intros rs Hrs. destruct (mapM_returns rs h inc h' Hrs) as [Hids Hu].
    assert (Hlen : length inc = length rs).
    { apply (f_equal length) in Hids. by rewrite !length_map, length_seq in Hids. }
    by rewrite Hlen. }
  unfold GetStream.incoming_of.
  destruct (truthy payload && isArray (prop payload "logs")); [apply Hmap|].
  destruct (isArray payload); [apply Hmap|].
  destruct (truthy payload && truthy (prop payload "keyId")).
  - unfold bind, ret. destruct (toLogEntry payload h) as [[e|x] h1] eqn:He; [|discriminate].
    apply toLogEntry_returns in He as (-> & Hid & _).
    intros [= <- <-]. simpl. rewrite Hid. split; [done|lia].
  - intros [= <- <-]. simpl. split; [done|lia].
Qed.

Lemma incoming_uuids payload h : (uuids h <= uuids (incoming_of payload h).2)%nat.
Proof.
  unfold GetStream.incoming_of.
  destruct (truthy payload && isArray (prop payload "logs")); [apply mapM_uuids|].
  destruct (isArray payload); [apply mapM_uuids|].
  destruct (truthy payload && truthy (prop payload "keyId")); [|done].
  unfold bind, ret. destruct (toLogEntry payload h) as [[e|x] h1] eqn:He.
  - apply toLogEntry_returns in He as (-> & _). simpl. lia.
  - by apply toLogEntry_throws in He as ->.
Qed.

Lemma drop_NoDup {A} (n : nat) (xs : list A) : NoDup xs -> NoDup (drop n xs).
Proof.
  intros H. rewrite <- (take_drop n xs) in H. by apply NoDup_app in H as (_ & _ & H).
Qed.

Lemma drawn_onmessage parsed h : drawn h -> drawn (onmessage parsed h).2.
Proof.
  intros (ns & Hids & Hnd & Hlt). destruct parsed as [payload|err]; [|by exists ns].
  rewrite onmessage_parsed.
  pose proof (incoming_frame randomUUID Date_parse payload h) as (Hd & _).
  pose proof (incoming_uuids payload h) as Hle.
  destruct (incoming_of payload h) as [[inc|e] h1] eqn:Hinc; simpl in *.
  - apply incoming_returns in Hinc as [Hinc Hu].
    set (fresh := seq (uuids h) (length inc)).
    assert (Hfresh : NoDup fresh /\ Forall (fun n => (n < uuids h1)%nat) fresh).
    { split; [apply NoDup_seq|]. apply Forall_forall. intros n Hn.
      apply elem_of_seq in Hn. lia. }
    destruct Hfresh as [Hf1 Hf2].
    assert (Hall : NoDup (ns ++ fresh) /\ Forall (fun n => (n < uuids h1)%nat) (ns ++ fresh)).
    { split.
      - apply NoDup_app. split; [done|]. split; [|done].
        intros n Hn1 Hn2. apply elem_of_seq in Hn2.
        rewrite Forall_forall in Hlt. specialize (Hlt n Hn1). lia.
      - apply Forall_app. split; [|done].
        eapply Forall_impl; [exact Hlt|]. simpl. intros n Hn. lia. }
    destruct Hall as [Ha1 Ha2].
    assert (Hlen : length fresh = length inc) by apply length_seq.
    destruct (is_initial payload); rewrite trim_drop.
    + exists (drop (length inc - cap) fresh). simpl.
      rewrite <- (skipn_map id _ inc), <- (skipn_map randomUUID _ fresh), Hinc. split; [done|]. split; [by apply drop_NoDup|].
      by apply Forall_drop.
    + exists (drop (length (data h ++ inc) - cap) (ns ++ fresh)). simpl.
      rewrite <- (skipn_map id _ (data h ++ inc)), <- (skipn_map randomUUID _ (ns ++ fresh)).
      rewrite !map_app, Hids, Hinc.
      split; [done|]. split; [by apply drop_NoDup|]. by apply Forall_drop.
  - exists ns. rewrite Hd. split; [done|]. split; [done|].
    eapply Forall_impl; [exact Hlt|]. simpl. intros n Hn. lia.
Qed.


Lemma drawn_receive msgs : forall h, drawn h -> drawn (receive msgs h).2.
Proof.
  induction msgs as [|m msgs IH]; intros h Hh; simpl; [done|].
  unfold bind. pose proof (drawn_onmessage m h Hh) as Hm.
  destruct (onmessage m h) as [[[]|e] h1]; simpl in *; [by apply IH|done].
Qed.

Lemma mapM_app {S A B} (f : A -> Eff S B) (xs ys : list A) : forall s,
  mapM f (xs ++ ys) s =
    match mapM f xs s with
    | (Normal bs, s1) =>
        match mapM f ys s1 with
        | (Normal cs, s2) => (Normal (bs ++ cs), s2)
        | (Throw e, s2) => (Throw e, s2)
        end
    | (Throw e, s1) => (Throw e, s1)
    end.
Proof.
  induction xs as [|x xs IH]; intros s; simpl.
  - by destruct (mapM f ys s) as [[cs|e] s2].
  - unfold bind, ret. destruct (f x s) as [[b|e] s1]; [|done].
    rewrite IH. destruct (mapM f xs s1) as [[bs|e] s2]; [|done].
    by destruct (mapM f ys s2) as [[cs|e] s3].
Qed.

Lemma mapM_well_formed rs : forall h,
  Forall (fun r => well_formed r = true) rs ->
  exists es, mapM toLogEntry rs h =
    (Normal es, mkHook (data h) (isLoading h) (error h) (connected h)
                       (uuids h + length rs)%nat).
Proof.
  induction rs as [|r rs IH]; intros h Hall; simpl.
  - exists []. destruct h. simpl. rewrite Nat.add_0_r. done.
  - apply Forall_cons in Hall as [Hr Hall]. unfold bind.
    rewrite (toLogEntry_well_formed randomUUID Date_parse r h Hr).
    destruct (IH (bump h) Hall) as [es ->]. eexists. simpl. unfold ret.
    by replace (S (uuids h + length rs))%nat with (uuids h + S (length rs))%nat by lia.
Qed.

(** X16.  Whenever [toLogEntry] returns, the entry's level is one of the
    seven level names, its source is truthy, its message and payload are
    those of the raw record, its [ts] is the ISO form of a time value within
    the range of [Date], its id is the next UUID, and exactly one UUID has
    been drawn; the raw record was neither [undefined] nor [null]. *)
Theorem toLogEntry_guarantees l h e h' :
  toLogEntry l h = (Normal e, h') ->
  h' = bump h /\ id e = randomUUID (uuids h) /\ level e ∈ levels /\
  truthy (source e) = true /\ message e = prop l "message" /\ payload e = spread l /\
  (exists ms, in_range ms = true /\ ts e = iso_of ms) /\
  nullish l = false.
Proof. apply toLogEntry_returns. Qed.

(** X17.  A message that decodes but whose records cannot be normalised is
    not caught by the handler: [es.onmessage] returns normally with the
    updater queued, the hook's state as it was and no error recorded.  The
    exception is raised by the render that runs the updater: the component
    is unmounted, and whatever messages follow, none is handled.  One
    [undefined] or [null] element in an array of otherwise well-formed
    records is enough, with a [TypeError]. *)
Theorem bad_record_rejects_message :
  (forall payload h,
     es_onmessage (Normal payload) h = (Normal (Some (updater payload)), h)) /\
  (forall payload h e h',
     onmessage (Normal payload) h = (Throw e, h') ->
     (render (Some (updater payload)) h).1 = Throw e /\
     forall msgs, stream (Normal payload :: msgs) (Mounted h) = Unmounted) /\
  (forall rs1 bad rs2 h,
     Forall (fun r => well_formed r = true) rs1 -> nullish bad = true ->
     exists e,
       (render (Some (updater (VArr (rs1 ++ bad :: rs2)))) h).1 = Throw e /\
       exn_name e = "TypeError" /\
       forall msgs,
         stream (Normal (VArr (rs1 ++ bad :: rs2)) :: msgs) (Mounted h) = Unmounted).
Proof.
  assert (Hend : forall payload h e h',
    onmessage (Normal payload) h = (Throw e, h') ->
    forall msgs, stream (Normal payload :: msgs) (Mounted h) = Unmounted).
  { intros payload h e h' Hm msgs.
    change (stream (Normal payload :: msgs) (Mounted h))
      with (stream msgs (deliver (Normal payload) (Mounted h))).
    unfold GetStream.deliver. rewrite Hm. apply stream_unmounted. }
  split; [done|]. split.
  - intros payload h e h' Hm. split; [|by eapply Hend].
    change (render (Some (updater payload)) h) with (onmessage (Normal payload) h).
    by rewrite Hm.
  - intros rs1 bad rs2 h Hall Hbad.
    assert (Hm : exists e h',
      onmessage (Normal (VArr (rs1 ++ bad :: rs2))) h = (Throw e, h') /\
      exn_name e = "TypeError").
    { rewrite onmessage_parsed. unfold GetStream.incoming_of.
      replace (truthy (VArr (rs1 ++ bad :: rs2)) &&
               isArray (prop (VArr (rs1 ++ bad :: rs2)) "logs")) with false by done.
      simpl. rewrite mapM_app.
      destruct (mapM_well_formed rs1 h Hall) as [es ->].
      simpl. unfold bind. rewrite toLogEntry_cases. simpl. rewrite Hbad.
      by eexists _, _. }
    destruct Hm as (e & h' & Hm & He). exists e. split; [|split; [done|]].
    + change (render (Some (updater (VArr (rs1 ++ bad :: rs2)))) h)
        with (onmessage (Normal (VArr (rs1 ++ bad :: rs2))) h).
      by rewrite Hm.
    + by eapply Hend.
Qed.

Lemma onmessage_flags m h :
  connected (onmessage m h).2 = connected h /\
  (is_Some (error h) -> is_Some (error (onmessage m h).2)) /\
  (isLoading h = false -> isLoading (onmessage m h).2 = false).
Proof.
  destruct m as [payload|err]; [|by repeat split].
  rewrite onmessage_parsed.
  pose proof (incoming_frame randomUUID Date_parse payload h) as (_ & Hl & He & Hc).
  by destruct (incoming_of payload h) as [[inc|x] h1]; simpl in *; rewrite ?He, ?Hl.
Qed.

Lemma receive_flags msgs : forall h,
  connected (receive msgs h).2 = connected h /\
  (is_Some (error h) -> is_Some (error (receive msgs h).2)) /\
  (isLoading h = false -> isLoading (receive msgs h).2 = false).
Proof.
  induction msgs as [|m msgs IH]; intros h; simpl; [done|].
  unfold bind. destruct (onmessage_flags m h) as (Hc & He & Hl).
  destruct (onmessage m h) as [[[]|e] h1]; simpl in *; [|done].
  destruct (IH h1) as (Hc' & He' & Hl'). rewrite Hc', Hc. auto.
Qed.

(** X18.  The message handler never changes [connected], never clears
    [error] and never sets [isLoading] back to true.  After a message that
    is not JSON, [error] holds the parse error and keeps holding it while
    later well-formed messages are appended to the window. *)
Theorem parse_error_sticky :
  (forall msgs h,
     connected (receive msgs h).2 = connected h /\
     (is_Some (error h) -> is_Some (error (receive msgs h).2)) /\
     (isLoading h = false -> isLoading (receive msgs h).2 = false)) /\
  (forall err rs h,
     Forall (fun r => single_record r = true) rs -> (length (data h) <= cap)%nat ->
     let h' := (receive (Throw err :: map Normal rs) h).2 in
     error h' = Some err /\ isLoading h' = false /\ connected h' = connected h /\
     data h' = trim (data h ++ entries (uuids h) rs)).
Proof.
  split; [intros msgs h; apply receive_flags|].
  intros err rs h Hall Hlen h'.
  assert (Heq : receive (Throw err :: map Normal rs) h =
                receive (map Normal rs)
                  (mkHook (data h) false (Some err) (connected h) (uuids h)))
    by reflexivity.
  destruct (receive_flags (map Normal rs)
              (mkHook (data h) false (Some err) (connected h) (uuids h)))
    as (_ & _ & Hl).
  destruct (receive_singles randomUUID Date_parse rs
              (mkHook (data h) false (Some err) (connected h) (uuids h)) Hall Hlen)
    as (h1 & Hrec & Hd & _ & He & Hc).
  assert (Hh' : h' = h1) by (unfold h'; by rewrite Heq, Hrec).
  rewrite Hrec in Hl. rewrite Hh'. simpl in *. auto.
Qed.

(** X19.  When [crypto.randomUUID] never returns the same value twice, the
    ids of the window are pairwise distinct after any sequence of
    messages. *)
Theorem window_ids_distinct (msgs : list (completion value)) (u : nat) :
  (forall m n, randomUUID m = randomUUID n -> m = n) ->
  NoDup (map id (data (receive msgs (subscribed u)).2)).
Proof.
  intros Hinj.
  destruct (drawn_receive msgs (subscribed u)) as (ns & -> & Hnd & _).
  { exists []. split; [done|]. split; [apply NoDup_nil_2|done]. }
  apply (NoDup_fmap_2_strong randomUUID); [|done]. intros m n _ _. apply Hinj.
Qed.


Lemma replace_first_space (d t : string) :
  Url.free_of " " d = true ->
  replace_first " " "T" (d +:+ String " " t) = d +:+ String "T" t.
Proof.
  induction d as [|c d IH]; intros Hd; [done|].
  simpl in Hd. apply andb_prop in Hd as [Hc Hd]. apply negb_true_iff in Hc.
  change (String c d +:+ String " " t) with (String c (d +:+ String " " t)).
  simpl. rewrite Hc, (IH Hd). done.
Qed.

(** X20.  For a record whose timestamp is not a number, [toLogEntry] hands
    [Date.parse] the timestamp as a string with its first space replaced by
    "T" and "Z" appended: [ts] is the ISO form of the time value parsed, and
    when the text does not parse, or parses out of range, [toLogEntry]
    throws a [RangeError] and draws no UUID.  A date and a time separated by
    a space thus become "dateTtimeZ"; a missing timestamp becomes
    "undefinedZ". *)
Theorem textual_timestamp :
  (forall l h,
     typed l = true -> is_number (prop l "timestamp") = false ->
     match Date_parse (parsed_text (prop l "timestamp")) with
     | Some ms =>
         if in_range ms
         then exists e, toLogEntry l h = (Normal e, bump h) /\ ts e = iso_of ms
         else toLogEntry l h = (Throw (Exn "RangeError" "Invalid time value"), h)
     | None => toLogEntry l h = (Throw (Exn "RangeError" "Invalid time value"), h)
     end) /\
  (forall d t,
     Url.free_of " " d = true ->
     parsed_text (VStr (d +:+ String " " t)) = (d +:+ String "T" t) +:+ "Z") /\
  parsed_text VUndefined = "undefinedZ".
Proof.
  split; [|split; [|done]].
  - intros l h Hty Hnum. apply andb_prop in Hty as [Hnn Hty].
    apply negb_true_iff in Hnn. rewrite toLogEntry_cases. simpl. rewrite Hnn.
    destruct (or_else (prop l "type") (VStr "info")); try discriminate Hty.
    assert (Hm : match prop l "timestamp" with
                 | VNum n => Some (n * 1000)
                 | _ => Date_parse (parsed_text (prop l "timestamp"))
                 end = Date_parse (parsed_text (prop l "timestamp")))
      by (by destruct (prop l "timestamp")).
    rewrite Hm.
    destruct (toISOString_cases (Date_parse (parsed_text (prop l "timestamp"))) h)
      as [(ms & -> & Hr & ->)|[-> Hout]].
    + rewrite Hr. by eexists.
    + destruct (Date_parse _) as [ms|]; [|done]. by rewrite (Hout ms eq_refl).
  - intros d t Hd. unfold parsed_text. simpl. by rewrite replace_first_space.
Qed.

End GetStreamMore.

Section GetStreamMoreExamples.
Import GetStream.

Lemma toLogEntry_guarantees_witness :
  let randomUUID := fun n : nat => pretty n in
  let Date_parse := fun _ : string => @None Z in
  let l := VObj [("type", VStr "Warning"); ("timestamp", VNum 1700000000)] in
  exists e, (GetStream.toLogEntry randomUUID Date_parse l (subscribed 7)).1 = Normal e /\
            id e = "7" /\ source e = VStr "default".
Proof.
  intros randomUUID Date_parse l. eexists. split; [reflexivity|].
  split; [|reflexivity].
  by destruct (toLogEntry_guarantees randomUUID Date_parse l (subscribed 7) _ _ eq_refl)
    as (_ & Hid & _).
Defined.

Lemma bad_record_rejects_message_witness :
  let randomUUID := fun n : nat => pretty n in
  let Date_parse := fun _ : string => @None Z in
  GetStream.stream randomUUID Date_parse
    [Normal (VArr [example_record; VNull; example_record]); Normal (numbered 1)]
    (Mounted (subscribed 0))
  = Unmounted.
Proof.
  intros randomUUID Date_parse.
  destruct (bad_record_rejects_message randomUUID Date_parse) as (_ & _ & Hbad).
  destruct (Hbad [example_record] VNull [example_record] (subscribed 0))
    as (e & _ & _ & Hend); [by repeat constructor|done|].
  exact (Hend [Normal (numbered 1)]).
Defined.

Lemma parse_error_sticky_witness :
  let randomUUID := fun n : nat => pretty n in
  let Date_parse := fun _ : string => @None Z in
  let err := Exn "SyntaxError" "Unexpected end of JSON input" in
  error (GetStream.receive randomUUID Date_parse
           [Throw err; Normal (numbered 1); Normal (numbered 2)] (subscribed 0)).2
  = Some err.
Proof.
  intros randomUUID Date_parse err.
  destruct (parse_error_sticky randomUUID Date_parse) as [_ Hsticky].
  assert (Hall : Forall (fun r => single_record r = true) [numbered 1; numbered 2])
    by (by repeat constructor).
  assert (Hlen : (length (data (subscribed 0)) <= cap)%nat) by (simpl; lia).
  by destruct (Hsticky err [numbered 1; numbered 2] (subscribed 0) Hall Hlen) as (He & _).
Defined.

Lemma window_ids_distinct_witness :
  let randomUUID := fun n : nat => pretty n in
  let Date_parse := fun _ : string => @None Z in
  NoDup (map id (data (GetStream.receive randomUUID Date_parse
                         [Normal (VArr [numbered 1; numbered 2]); Normal (numbered 3)]
                         (subscribed 0)).2)).
Proof.
  intros randomUUID Date_parse.
  apply (window_ids_distinct randomUUID Date_parse). intros m n Hmn.
  by apply (inj pretty).
Defined.

Lemma textual_timestamp_witness :
  let randomUUID := fun n : nat => pretty n in
  let Date_parse := fun s : string =>
    if String.eqb s "2024-01-02T03:04:05Z" then Some 1704164645000 else None in
  let l := VObj [("timestamp", VStr "2024-01-02 03:04:05")] in
  exists e, GetStream.toLogEntry randomUUID Date_parse l (subscribed 0)
              = (Normal e, bump (subscribed 0)) /\
            ts e = iso_of 1704164645000.
Proof.
  intros randomUUID Date_parse l.
  destruct (textual_timestamp randomUUID Date_parse) as [Hts _].
  exact (Hts l (subscribed 0) eq_refl eq_refl).
Defined.

End GetStreamMoreExamples.
